(** * Higher-order functions over slices and channels

    A shallow embedding of [higher-order-functions.go]: the slice functions
    ([mapT], [filterT], [removeT], [take], [drop], [foldlT], [foldrT]) as
    loops over lists, the parallel map [pmapT] and the channel pipeline
    ([to_chan], [mapchanT], [from_chan]) as step relations over explicit
    goroutine states, where every interleaving is a path of the relation. *)

From Stdlib Require Import ZArith Lia.
From stdpp Require Import base tactics option list relations.

Local Open Scope Z_scope.

(** ** Machine integers

    [type T int]: the element type is Go's [int], taken here at 64 bits,
    two's complement.  Values are carried as [Z]; arithmetic wraps. *)

Abbreviation T := Z.

Definition int_min : Z := - 2 ^ 63.
Definition int_max : Z := 2 ^ 63 - 1.

Definition is_int (n : Z) : Prop := int_min ≤ n ≤ int_max.

Definition wrap (z : Z) : Z := (z + 2 ^ 63) mod 2 ^ 64 - 2 ^ 63.

Definition int_sub (x y : Z) : Z := wrap (x - y).

(** The closures of [main]: [func(x, y T) T { return x - y }],
    [func(i T) T { return i * 2 }] and [func(i T) bool { return i%2 == 0 }];
    and its data set. *)
Definition sub (x y : T) : T := int_sub x y.

Definition double (i : T) : T := wrap (i * 2).

Definition even (i : T) : bool := Z.rem i 2 =? 0.

Definition dataset : list T := [1; 2; 3; 4; 5; 6; 7; 8; 9; 10].

(** ** Slices

    A slice value is the list of its elements.  [make([]T, n)] is [n] zero
    values; an indexed store outside the length panics ([None]). *)

Definition make (n : nat) : list T := replicate n 0.

Definition store (to : list T) (i : nat) (x : T) : option (list T) :=
  if decide (i < length to)%nat then Some (<[i := x]> to) else None.

(** ** Sequential functions *)

(** [for i, v := range from { to[i] = f(v) }] *)
Fixpoint mapT_loop (f : T → T) (i : nat) (from to : list T) : option (list T) :=
  match from with
  | [] => Some to
  | v :: rest => to' ← store to i (f v); mapT_loop f (S i) rest to'
  end.

Definition mapT (f : T → T) (from : list T) : option (list T) :=
  mapT_loop f 0 from (make (length from)).

(** [for _, v := range from { if f(v) { to = append(to, v) } }] *)
Fixpoint filterT_loop (f : T → bool) (from to : list T) : list T :=
  match from with
  | [] => to
  | v :: rest => filterT_loop f rest (if f v then to ++ [v] else to)
  end.

Definition filterT (f : T → bool) (from : list T) : list T :=
  filterT_loop f from (make 0).

(** [for _, n := range from { if !f(n) { to = append(to, n) } }] *)
Fixpoint removeT_loop (f : T → bool) (from to : list T) : list T :=
  match from with
  | [] => to
  | n :: rest => removeT_loop f rest (if negb (f n) then to ++ [n] else to)
  end.

Definition removeT (f : T → bool) (from : list T) : list T :=
  removeT_loop f from (make 0).

(** [for _, v := range from { if n <= 0 { break }; to = append(to, v); n -= 1 }] *)
Fixpoint take_loop (n : Z) (from to : list T) : list T :=
  match from with
  | [] => to
  | v :: rest =>
      if n <=? 0 then to
      else take_loop (int_sub n 1) rest (to ++ [v])
  end.

Definition take (n : Z) (from : list T) : list T := take_loop n from (make 0).

(** [for _, v := range from { if n > 0 { n -= 1; continue }; to = append(to, v) }] *)
Fixpoint drop_loop (n : Z) (from to : list T) : list T :=
  match from with
  | [] => to
  | v :: rest =>
      if 0 <? n then drop_loop (int_sub n 1) rest to
      else drop_loop n rest (to ++ [v])
  end.

Definition drop (n : Z) (from : list T) : list T := drop_loop n from (make 0).

(** [foldlT]: [len(xs) == 0] returns [z]; otherwise [x := xs[0]],
    [xs = xs[1:]] and the call [foldlT(f, f(z, x), xs)]. *)
Fixpoint foldlT (f : T → T → T) (z : T) (xs : list T) : T :=
  match xs with
  | [] => z
  | x :: xs' => foldlT f (f z x) xs'
  end.

(** [foldrT]: the same destructuring, returning [f(x, foldrT(f, z, xs))]. *)
Fixpoint foldrT (f : T → T → T) (z : T) (xs : list T) : T :=
  match xs with
  | [] => z
  | x :: xs' => f x (foldrT f z xs')
  end.

(** *** The folds on a bounded call stack

    The same two bodies, written with the slice operations of the source
    ([len(xs)], [xs[0]], [xs[1:]]) and run with room for [d] nested calls
    below the outermost one.  Nothing here presupposes that the recursion
    stops: a call that needs a deeper stack yields [StackOverflow]. *)

Inductive outcome : Type :=
  | Ret (r : T)
  | StackOverflow
  | Panic.

Fixpoint foldlT_frames (d : nat) (f : T → T → T) (z : T) (xs : list T) : outcome :=
  if (length xs =? 0)%nat then Ret z
  else match xs !! 0%nat with
       | None => Panic
       | Some x =>
           match d with
           | O => StackOverflow
           | S d' => foldlT_frames d' f (f z x) (skipn 1 xs)
           end
       end.

Fixpoint foldrT_frames (d : nat) (f : T → T → T) (z : T) (xs : list T) : outcome :=
  if (length xs =? 0)%nat then Ret z
  else match xs !! 0%nat with
       | None => Panic
       | Some x =>
           match d with
           | O => StackOverflow
           | S d' =>
               match foldrT_frames d' f z (skipn 1 xs) with
               | Ret r => Ret (f x r)
               | o => o
               end
           end
       end.

(** A merge of two lists: every element of the third list comes from exactly
    one of the first two, and each of them keeps its order. *)
Inductive interleaved : list T → list T → list T → Prop :=
  | interleaved_nil : interleaved [] [] []
  | interleaved_l x l1 l2 l : interleaved l1 l2 l → interleaved (x :: l1) l2 (x :: l)
  | interleaved_r x l1 l2 l : interleaved l1 l2 l → interleaved l1 (x :: l2) (x :: l).

(** ** More of the sequential code *)

(** The other two closures [main] folds with:
    [func(x, y T) T { return x + y }] and [func(x, y T) T { return x * y }]. *)
Definition add (x y : T) : T := wrap (x + y).

Definition mult (x y : T) : T := wrap (x * y).

(** An indexed store whose index is computed in [int]: a negative index
    panics as one past the end does. *)
Definition store_at (to : list T) (i : Z) (x : T) : option (list T) :=
  if decide (0 ≤ i) then store to (Z.to_nat i) x else None.

(** [for i, v := range in { out[(l-1)-i] = v }], with [l = len(in)]. *)
Fixpoint reverse_loop (l : Z) (i : nat) (inp out : list T) : option (list T) :=
  match inp with
  | [] => Some out
  | v :: rest =>
      out' ← store_at out (int_sub (int_sub l 1) (Z.of_nat i)) v;
      reverse_loop l (S i) rest out'
  end.

(** [reverse]: [l := len(in); out := make([]T, l)], the loop, [return out]. *)
Definition reverse (inp : list T) : option (list T) :=
  reverse_loop (Z.of_nat (length inp)) 0 inp (make (length inp)).

(** ** Slices in memory

    For what a result shares with its argument: the heap holds the arrays,
    and a slice is a window on one of them, [len] elements from [off] on
    with room for [cap].  [drop_mem] is [drop] over this memory. *)

Abbreviation heap := (list (list T)).

Record slice : Type := Slice {
  arr : nat;
  off : nat;
  len : nat;
  cap : nat;
}.

Definition array (h : heap) (l : nat) : list T := default [] (h !! l).

Definition elems (h : heap) (sl : slice) : list T :=
  firstn (len sl) (skipn (off sl) (array h (arr sl))).

Definition valid (h : heap) (sl : slice) : Prop :=
  (arr sl < length h)%nat ∧
  (len sl ≤ cap sl)%nat ∧
  (off sl + cap sl ≤ length (array h (arr sl)))%nat.

(** [make([]T, n)]: a new array of [n] zero values. *)
Definition make_mem (n : nat) (h : heap) : slice * heap :=
  (Slice (length h) 0 n n, h ++ [replicate n 0]).

(** [sl[i]]; an index outside the length panics. *)
Definition read (h : heap) (sl : slice) (i : nat) : option T :=
  if decide (i < len sl)%nat then array h (arr sl) !! (off sl + i)%nat else None.

(** [sl[i] = x] *)
Definition store_mem (h : heap) (sl : slice) (i : nat) (x : T) : option heap :=
  if decide (i < len sl)%nat
  then Some (<[arr sl := <[(off sl + i)%nat := x]> (array h (arr sl))]> h)
  else None.

(** [append(sl, v)]: with room left the element is written behind the
    last one, in the same array; without, the elements move to a new array
    of capacity [grow c m], for [m] elements that do not fit in [c]. *)
Definition append_mem (grow : nat → nat → nat) (sl : slice) (v : T) (h : heap) :
    slice * heap :=
  if decide (len sl < cap sl)%nat
  then (Slice (arr sl) (off sl) (S (len sl)) (cap sl),
        <[arr sl := <[(off sl + len sl)%nat := v]> (array h (arr sl))]> h)
  else let c := grow (cap sl) (S (len sl)) in
       (Slice (length h) 0 (S (len sl)) c,
        h ++ [elems h sl ++ v :: replicate (c - S (len sl)) 0]).

(** The loop of [drop], [k] elements of [from] still to visit from index
    [i] on, each read when its turn comes. *)
Fixpoint drop_mem_loop (grow : nat → nat → nat) (k i : nat) (n : Z)
    (from to : slice) (h : heap) : option (slice * heap) :=
  match k with
  | O => Some (to, h)
  | S k' =>
      v ← read h from i;
      if 0 <? n then drop_mem_loop grow k' (S i) (int_sub n 1) from to h
      else let '(to', h') := append_mem grow to v h in
           drop_mem_loop grow k' (S i) n from to' h'
  end.

(** [drop]: [to := make([]T, 0)], the loop over [from], [return to]. *)
Definition drop_mem (grow : nat → nat → nat) (n : Z) (from : slice) (h : heap) :
    option (slice * heap) :=
  let '(to, h1) := make_mem 0 h in
  drop_mem_loop grow (len from) 0 n from to h1.

(** Two heaps that agree on what was there before. *)
Definition extends (h0 h : heap) : Prop :=
  (length h0 ≤ length h)%nat ∧ ∀ l, (l < length h0)%nat → h !! l = h0 !! l.

(** A heap with one array, and the slice that is all of it. *)
Definition dataset_heap : heap := [dataset].

Definition dataset_slice : slice := Slice 0 0 10 10.

(** A new array twice as large as what has to fit. *)
Definition double_cap (c m : nat) : nat := (2 * m)%nat.

(** ** Runs of a concurrent program

    A concurrent program is a step relation over its states; one path of
    the relation is one schedule.  [always_returns step result σ r]: from
    [σ], every schedule reaches in finitely many steps a state where the
    caller has returned [r], and no state on the way is stuck. *)

Inductive always_returns {S R : Type} (step : S → S → Prop) (result : S → option R) :
    S → R → Prop :=
  | ar_now σ r :
      result σ = Some r → always_returns step result σ r
  | ar_later σ r :
      result σ = None →
      (∃ σ', step σ σ') →
      (∀ σ', step σ σ' → always_returns step result σ' r) →
      always_returns step result σ r.

(** ** Channels and goroutines

    Unbuffered channels ([make(chan T)]): a send and a receive on the same
    open channel happen together; a receive on a closed channel yields the
    zero value and [false]; [close] marks the channel closed; a send on a
    closed channel and a second [close] panic, which ends the program. *)

Module Chan.

Definition chan := nat.

(** One constructor for each place where a goroutine of the source can
    stand, with its live variables.  The caller of [to_chan] and of
    [mapchanT] carries what it does with the channel it gets back. *)
Inductive goroutine : Type :=
  | G_call_to_chan (inp : list T) (k : chan → goroutine)
      (* a caller, at a call [to_chan(inp)] *)
  | G_call_mapchanT (f : T → T) (from : chan) (k : chan → goroutine)
      (* a caller, at a call [mapchanT(f, from)] *)
  | G_to_chan (rest : list T) (out : chan)
      (* to_chan's goroutine, at its loop head *)
  | G_mapchan (f : T → T) (from to : chan)
      (* mapchanT's goroutine, at [i, e := <-from] *)
  | G_mapchan_send (f : T → T) (from to : chan) (i : T)
      (* mapchanT's goroutine, at [to <- f(i)] *)
  | G_mapchan_close (to : chan)
      (* mapchanT's goroutine, at [close(to)] after [e == false] *)
  | G_from_chan (inp : chan) (out : list T)
      (* from_chan, at [for n := range in] *)
  | G_return (out : list T)
      (* from_chan has returned [out] to main *)
  | G_exit.
      (* the goroutine's function has returned *)

Inductive action : Type :=
  | AGo (spawn : chan → goroutine) (k : chan → goroutine)
      (* [c := make(chan T); go func() {...}()], then on with [c] *)
  | ASend (c : chan) (v : T) (k : goroutine)
  | ARecv (c : chan) (k : T → bool → goroutine)
  | AClose (c : chan) (k : goroutine)
  | AHalt.

(** [to_chan]: [out := make(chan T)], the goroutine, [return out]. *)
Definition to_chan (inp : list T) (k : chan → goroutine) : action :=
  AGo (λ out, G_to_chan inp out) k.

(** [mapchanT]: [to := make(chan T)], the goroutine, [return to]. *)
Definition mapchanT (f : T → T) (from : chan) (k : chan → goroutine) : action :=
  AGo (λ to, G_mapchan f from to) k.

(** [from_chan]: [out := make([]T, 0)], then the loop. *)
Definition from_chan (inp : chan) : goroutine := G_from_chan inp (make 0).

(** What a goroutine does next, and where it goes from there. *)
Definition next (g : goroutine) : action :=
  match g with
  | G_call_to_chan inp k => to_chan inp k
  | G_call_mapchanT f from k => mapchanT f from k
  | G_to_chan [] out => AClose out G_exit
  | G_to_chan (n :: rest) out => ASend out n (G_to_chan rest out)
  | G_mapchan f from to =>
      ARecv from (λ i e,
        if e then G_mapchan_send f from to i else G_mapchan_close to)
  | G_mapchan_send f from to i => ASend to (f i) (G_mapchan f from to)
  | G_mapchan_close to => AClose to G_exit
  | G_from_chan inp out =>
      ARecv inp (λ n ok,
        if ok then G_from_chan inp (out ++ [n]) else G_return out)
  | G_return _ => AHalt
  | G_exit => AHalt
  end.

(** [closed !! c] tells whether channel [c] is closed; thread 0 is main. *)
Record config : Type := Config {
  closed : list bool;
  threads : list goroutine;
  crashed : bool;
}.

(** One step: a goroutine makes a channel and starts another goroutine; a
    sender and a receiver meet on an open channel; a receiver finds its
    channel closed; a goroutine closes an open channel; or a goroutine
    panics on a closed one, after which nothing runs. *)
Inductive step : config → config → Prop :=
  | step_go σ i gi spawn k :
      crashed σ = false →
      threads σ !! i = Some gi → next gi = AGo spawn k →
      step σ (Config (closed σ ++ [false])
                     (<[i := k (length (closed σ))]> (threads σ)
                        ++ [spawn (length (closed σ))])
                     false)
  | step_comm σ i j gi gj c v ki kj :
      crashed σ = false →
      i ≠ j →
      threads σ !! i = Some gi → next gi = ASend c v ki →
      threads σ !! j = Some gj → next gj = ARecv c kj →
      closed σ !! c = Some false →
      step σ (Config (closed σ) (<[j := kj v true]> (<[i := ki]> (threads σ))) false)
  | step_recv_closed σ j gj c kj :
      crashed σ = false →
      threads σ !! j = Some gj → next gj = ARecv c kj →
      closed σ !! c = Some true →
      step σ (Config (closed σ) (<[j := kj 0 false]> (threads σ)) false)
  | step_close σ i gi c ki :
      crashed σ = false →
      threads σ !! i = Some gi → next gi = AClose c ki →
      closed σ !! c = Some false →
      step σ (Config (<[c := true]> (closed σ)) (<[i := ki]> (threads σ)) false)
  | step_send_closed σ i gi c v ki :
      crashed σ = false →
      threads σ !! i = Some gi → next gi = ASend c v ki →
      closed σ !! c = Some true →
      step σ (Config (closed σ) (threads σ) true)
  | step_close_closed σ i gi c ki :
      crashed σ = false →
      threads σ !! i = Some gi → next gi = AClose c ki →
      closed σ !! c = Some true →
      step σ (Config (closed σ) (threads σ) true).

(** What [from_chan] has returned to main, once it has. *)
Definition result (σ : config) : option (list T) :=
  if crashed σ then None
  else match threads σ !! 0%nat with
       | Some (G_return out) => Some out
       | _ => None
       end.

(** A program: main alone, no channel yet. *)
Definition run (g : goroutine) : config := Config [] [g] false.

(** Main, back from a call, goes on with [g]. *)
Definition resume (g : goroutine) (σ : config) : config :=
  Config (closed σ) (<[0%nat := g]> (threads σ)) (crashed σ).

(** [from_chan(to_chan(s))] *)
Definition roundtrip (s : list T) : config :=
  run (G_call_to_chan s (λ c, from_chan c)).

(** [from_chan(mapchanT(f, to_chan(s)))] *)
Definition map_pipeline (f : T → T) (s : list T) : config :=
  run (G_call_to_chan s (λ c1, G_call_mapchanT f c1 (λ c2, from_chan c2))).

(** The steps each goroutine still has to take, at most. *)
Fixpoint weight (g : goroutine) : nat :=
  match g with
  | G_call_to_chan inp k => 2 * length inp + 2 + weight (k 0%nat)
  | G_call_mapchanT _ _ k => 3 + weight (k 0%nat)
  | G_to_chan rest _ => 2 * length rest + 1
  | G_mapchan _ _ _ => 2
  | G_mapchan_send _ _ _ _ => 3
  | G_mapchan_close _ => 1
  | G_from_chan _ _ => 1
  | G_return _ | G_exit => 0
  end.

Definition measure (σ : config) : nat := sum_list_with weight (threads σ).

(** The states [roundtrip s] can reach. *)
Inductive roundtrip_inv (s : list T) : config → Prop :=
  | RI_start :
      roundtrip_inv s (Config [] [G_call_to_chan s (λ c, from_chan c)] false)
  | RI_open out rest :
      out ++ rest = s →
      roundtrip_inv s (Config [false] [G_from_chan 0%nat out; G_to_chan rest 0%nat] false)
  | RI_closed :
      roundtrip_inv s (Config [true] [G_from_chan 0%nat s; G_exit] false)
  | RI_done :
      roundtrip_inv s (Config [true] [G_return s; G_exit] false).

(** The mapper between two channels, with what it holds in hand. *)
Inductive mapper_at (f : T → T) : goroutine → list T → Prop :=
  | MA_recv : mapper_at f (G_mapchan f 0%nat 1%nat) []
  | MA_send i : mapper_at f (G_mapchan_send f 0%nat 1%nat i) [f i].

(** The states [map_pipeline f s] can reach. *)
Inductive map_inv (f : T → T) (s : list T) : config → Prop :=
  | MI_start :
      map_inv f s
        (Config []
           [G_call_to_chan s (λ c1, G_call_mapchanT f c1 (λ c2, from_chan c2))] false)
  | MI_producer :
      map_inv f s
        (Config [false]
           [G_call_mapchanT f 0%nat (λ c2, from_chan c2); G_to_chan s 0%nat] false)
  | MI_producer_gone :
      s = [] →
      map_inv f s
        (Config [true] [G_call_mapchanT f 0%nat (λ c2, from_chan c2); G_exit] false)
  | MI_open out m hand rest :
      mapper_at f m hand →
      out ++ hand ++ (f <$> rest) = f <$> s →
      map_inv f s
        (Config [false; false] [G_from_chan 1%nat out; G_to_chan rest 0%nat; m] false)
  | MI_half out m hand :
      mapper_at f m hand →
      out ++ hand = f <$> s →
      map_inv f s (Config [true; false] [G_from_chan 1%nat out; G_exit; m] false)
  | MI_closing :
      map_inv f s
        (Config [true; false]
           [G_from_chan 1%nat (f <$> s); G_exit; G_mapchan_close 1%nat] false)
  | MI_closed :
      map_inv f s
        (Config [true; true] [G_from_chan 1%nat (f <$> s); G_exit; G_exit] false)
  | MI_done :
      map_inv f s (Config [true; true] [G_return (f <$> s); G_exit; G_exit] false).

(** A channel that is closed while no goroutine but main can still act. *)
Definition drained (c : chan) (σ : config) : Prop :=
  crashed σ = false ∧
  closed σ !! c = Some true ∧
  (0 < length (threads σ))%nat ∧
  ∀ i g, i ≠ 0%nat → threads σ !! i = Some g → next g = AHalt.

End Chan.

(** ** The parallel map

    [pmapT] starts one goroutine per element; all of them write into the
    one slice [to] and meet at the wait group.  The counter of the wait
    group is carried as an unbounded integer. *)

Module ParMap.

(** [go func(i int, v T) { defer wg.Done(); to[i] = f(v) }(i, v)] *)
Inductive worker : Type :=
  | W_run (f : T → T) (i : nat) (v : T)   (* at [to[i] = f(v)] *)
  | W_deferred                            (* at the deferred [wg.Done()] *)
  | W_exit.

Inductive caller : Type :=
  | M_loop (f : T → T) (i : nat) (rest : list T)
      (* at [for i, v := range from]; with nothing left, at [wg.Wait()] *)
  | M_return (out : list T).              (* [return to] *)

Record state : Type := State {
  to : list T;
  wg : Z;
  main : caller;
  workers : list worker;
  crashed : bool;
}.

(** One step of one goroutine: main starts a worker or leaves [wg.Wait()]
    once the counter is zero; a worker stores its element, or runs its
    deferred [wg.Done()].  A store outside [to] and a counter below zero
    are the two panics; after a panic nothing runs. *)
Inductive step : state → state → Prop :=
  | step_go σ f i v rest :
      crashed σ = false →
      main σ = M_loop f i (v :: rest) →
      step σ (State (to σ) (wg σ) (M_loop f (S i) rest)
                    (workers σ ++ [W_run f i v]) false)
  | step_wait σ f i :
      crashed σ = false →
      main σ = M_loop f i [] →
      wg σ = 0 →
      step σ (State (to σ) (wg σ) (M_return (to σ)) (workers σ) false)
  | step_store σ k f i v to' :
      crashed σ = false →
      workers σ !! k = Some (W_run f i v) →
      store (to σ) i (f v) = Some to' →
      step σ (State to' (wg σ) (main σ) (<[k := W_deferred]> (workers σ)) false)
  | step_store_panic σ k f i v :
      crashed σ = false →
      workers σ !! k = Some (W_run f i v) →
      store (to σ) i (f v) = None →
      step σ (State (to σ) (wg σ) (main σ) (workers σ) true)
  | step_done σ k :
      crashed σ = false →
      workers σ !! k = Some W_deferred →
      0 ≤ wg σ - 1 →
      step σ (State (to σ) (wg σ - 1) (main σ) (<[k := W_exit]> (workers σ)) false)
  | step_done_panic σ k :
      crashed σ = false →
      workers σ !! k = Some W_deferred →
      wg σ - 1 < 0 →
      step σ (State (to σ) (wg σ) (main σ) (workers σ) true).

Definition result (σ : state) : option (list T) :=
  if crashed σ then None
  else match main σ with
       | M_return out => Some out
       | M_loop _ _ _ => None
       end.

(** [pmapT], up to the loop: [N := len(from)], [to := make([]T, N)],
    a zero wait group and [wg.Add(N)]. *)
Definition pmapT (f : T → T) (from : list T) : state :=
  let N := length from in
  State (make N) (0 + Z.of_nat N) (M_loop f 0 from) [] false.

Definition weight (w : worker) : nat :=
  match w with
  | W_run _ _ _ => 2
  | W_deferred => 1
  | W_exit => 0
  end.

Definition exited (w : worker) : nat :=
  match w with
  | W_exit => 1
  | _ => 0
  end.

Definition measure (σ : state) : nat :=
  match main σ with
  | M_loop _ _ rest => 3 * length rest + 1
  | M_return _ => 0
  end + sum_list_with weight (workers σ).

(** What worker [k] knows: before its store, its own index and element;
    after it, that [to[k]] is written. *)
Definition worker_ok (f : T → T) (s : list T) (σ : state) (k : nat) (w : worker) : Prop :=
  ∃ v, s !! k = Some v ∧
    match w with
    | W_run g i v' => g = f ∧ i = k ∧ v' = v
    | W_deferred | W_exit => to σ !! k = Some (f v)
    end.

Definition caller_ok (f : T → T) (s : list T) (σ : state) : Prop :=
  match main σ with
  | M_loop g i rest => g = f ∧ i = length (workers σ) ∧ skipn i s = rest
  | M_return out => out = f <$> s
  end.

(** The states [pmapT f s] can reach. *)
Record inv (f : T → T) (s : list T) (σ : state) : Prop := Inv {
  inv_alive : crashed σ = false;
  inv_length : length (to σ) = length s;
  inv_caller : caller_ok f s σ;
  inv_workers : ∀ k w, workers σ !! k = Some w → worker_ok f s σ k w;
  inv_wg : wg σ = Z.of_nat (length s) - Z.of_nat (sum_list_with exited (workers σ));
}.

End ParMap.

(** ** The filtering stages, and stages in a chain

    [filterchanT] and [removechanT] join the goroutines of [Chan]; a caller
    may feed the channel one stage returns to the next one. *)

Module Stages.

Abbreviation chan := Chan.chan.

Inductive goroutine : Type :=
  | G_chan (g : Chan.goroutine)
      (* a goroutine of to_chan, of mapchanT or of from_chan *)
  | G_call_to_chan (inp : list T) (k : chan → goroutine)
      (* a caller, at a call [to_chan(inp)] *)
  | G_call_mapchanT (f : T → T) (from : chan) (k : chan → goroutine)
      (* a caller, at a call [mapchanT(f, from)] *)
  | G_call_filterchanT (f : T → bool) (from : chan) (k : chan → goroutine)
      (* a caller, at a call [filterchanT(f, from)] *)
  | G_call_removechanT (f : T → bool) (from : chan) (k : chan → goroutine)
      (* a caller, at a call [removechanT(f, from)] *)
  | G_filterchan (f : T → bool) (from to : chan)
      (* filterchanT's goroutine, at [for n := range from] *)
  | G_filterchan_send (f : T → bool) (from to : chan) (n : T)
      (* filterchanT's goroutine, at [to <- n] *)
  | G_filterchan_close (to : chan)
      (* filterchanT's goroutine, at [close(to)] *)
  | G_removechan (f : T → bool) (from to : chan)
      (* removechanT's goroutine, at [for n := range from] *)
  | G_removechan_send (f : T → bool) (from to : chan) (n : T)
      (* removechanT's goroutine, at [to <- n] *)
  | G_removechan_close (to : chan)
      (* removechanT's goroutine, at [close(to)] *)
  | G_exit.
      (* the goroutine's function has returned *)

Inductive action : Type :=
  | AGo (spawn : chan → goroutine) (k : chan → goroutine)
  | ASend (c : chan) (v : T) (k : goroutine)
  | ARecv (c : chan) (k : T → bool → goroutine)
  | AClose (c : chan) (k : goroutine)
  | AHalt.

(** The actions of the goroutines of [Chan], as they are. *)
Definition lift (a : Chan.action) : action :=
  match a with
  | Chan.AGo spawn k => AGo (λ c, G_chan (spawn c)) (λ c, G_chan (k c))
  | Chan.ASend c v k => ASend c v (G_chan k)
  | Chan.ARecv c k => ARecv c (λ v ok, G_chan (k v ok))
  | Chan.AClose c k => AClose c (G_chan k)
  | Chan.AHalt => AHalt
  end.

Definition to_chan (inp : list T) (k : chan → goroutine) : action :=
  AGo (λ out, G_chan (Chan.G_to_chan inp out)) k.

Definition mapchanT (f : T → T) (from : chan) (k : chan → goroutine) : action :=
  AGo (λ to, G_chan (Chan.G_mapchan f from to)) k.

(** [filterchanT]: [to := make(chan T)], the goroutine, [return to]. *)
Definition filterchanT (f : T → bool) (from : chan) (k : chan → goroutine) : action :=
  AGo (λ to, G_filterchan f from to) k.

(** [removechanT]: [to := make(chan T)], the goroutine, [return to]. *)
Definition removechanT (f : T → bool) (from : chan) (k : chan → goroutine) : action :=
  AGo (λ to, G_removechan f from to) k.

Definition from_chan (inp : chan) : goroutine := G_chan (Chan.from_chan inp).

Definition next (g : goroutine) : action :=
  match g with
  | G_chan g' => lift (Chan.next g')
  | G_call_to_chan inp k => to_chan inp k
  | G_call_mapchanT f from k => mapchanT f from k
  | G_call_filterchanT f from k => filterchanT f from k
  | G_call_removechanT f from k => removechanT f from k
  | G_filterchan f from to =>
      ARecv from (λ n ok,
        if ok then (if f n then G_filterchan_send f from to n
                    else G_filterchan f from to)
        else G_filterchan_close to)
  | G_filterchan_send f from to n => ASend to n (G_filterchan f from to)
  | G_filterchan_close to => AClose to G_exit
  | G_removechan f from to =>
      ARecv from (λ n ok,
        if ok then (if negb (f n) then G_removechan_send f from to n
                    else G_removechan f from to)
        else G_removechan_close to)
  | G_removechan_send f from to n => ASend to n (G_removechan f from to)
  | G_removechan_close to => AClose to G_exit
  | G_exit => AHalt
  end.

Record config : Type := Config {
  closed : list bool;
  threads : list goroutine;
  crashed : bool;
}.

(** The steps of [Chan.step], over the larger set of goroutines. *)
Inductive step : config → config → Prop :=
  | step_go σ i gi spawn k :
      crashed σ = false →
      threads σ !! i = Some gi → next gi = AGo spawn k →
      step σ (Config (closed σ ++ [false])
                     (<[i := k (length (closed σ))]> (threads σ)
                        ++ [spawn (length (closed σ))])
                     false)
  | step_comm σ i j gi gj c v ki kj :
      crashed σ = false →
      i ≠ j →
      threads σ !! i = Some gi → next gi = ASend c v ki →
      threads σ !! j = Some gj → next gj = ARecv c kj →
      closed σ !! c = Some false →
      step σ (Config (closed σ) (<[j := kj v true]> (<[i := ki]> (threads σ))) false)
  | step_recv_closed σ j gj c kj :
      crashed σ = false →
      threads σ !! j = Some gj → next gj = ARecv c kj →
      closed σ !! c = Some true →
      step σ (Config (closed σ) (<[j := kj 0 false]> (threads σ)) false)
  | step_close σ i gi c ki :
      crashed σ = false →
      threads σ !! i = Some gi → next gi = AClose c ki →
      closed σ !! c = Some false →
      step σ (Config (<[c := true]> (closed σ)) (<[i := ki]> (threads σ)) false)
  | step_send_closed σ i gi c v ki :
      crashed σ = false →
      threads σ !! i = Some gi → next gi = ASend c v ki →
      closed σ !! c = Some true →
      step σ (Config (closed σ) (threads σ) true)
  | step_close_closed σ i gi c ki :
      crashed σ = false →
      threads σ !! i = Some gi → next gi = AClose c ki →
      closed σ !! c = Some true →
      step σ (Config (closed σ) (threads σ) true).

Definition result (σ : config) : option (list T) :=
  if crashed σ then None
  else match threads σ !! 0%nat with
       | Some (G_chan (Chan.G_return out)) => Some out
       | _ => None
       end.

Definition run (g : goroutine) : config := Config [] [g] false.

Definition resume (g : goroutine) (σ : config) : config :=
  Config (closed σ) (<[0%nat := g]> (threads σ)) (crashed σ).

(** One stage of a chain: which of the three functions, and its argument. *)
Inductive stage : Type :=
  | Map (f : T → T)
  | Filter (f : T → bool)
  | Remove (f : T → bool).

Definition call_stage (st : stage) (from : chan) (k : chan → goroutine) : goroutine :=
  match st with
  | Map f => G_call_mapchanT f from k
  | Filter f => G_call_filterchanT f from k
  | Remove f => G_call_removechanT f from k
  end.

(** A caller holding channel [c] that runs it through the stages in turn
    and reads the last channel with [from_chan]. *)
Fixpoint call_stages (sts : list stage) (c : chan) : goroutine :=
  match sts with
  | [] => from_chan c
  | st :: sts' => call_stage st c (λ c', call_stages sts' c')
  end.

(** [from_chan(st_n(... st_1(to_chan(s)) ...))] *)
Definition pipeline (sts : list stage) (s : list T) : config :=
  run (G_call_to_chan s (call_stages sts)).

(** [from_chan(filterchanT(f, to_chan(s)))] *)
Definition filter_pipeline (f : T → bool) (s : list T) : config :=
  run (G_call_to_chan s (λ c1, G_call_filterchanT f c1 (λ c2, from_chan c2))).

(** [from_chan(removechanT(f, to_chan(s)))] *)
Definition remove_pipeline (f : T → bool) (s : list T) : config :=
  run (G_call_to_chan s (λ c1, G_call_removechanT f c1 (λ c2, from_chan c2))).

(** The same stages applied one after the other to a slice. *)
Definition seq_stage (st : stage) (l : list T) : option (list T) :=
  match st with
  | Map f => mapT f l
  | Filter f => Some (filterT f l)
  | Remove f => Some (removeT f l)
  end.

Fixpoint seq_stages (sts : list stage) (l : list T) : option (list T) :=
  match sts with
  | [] => Some l
  | st :: sts' => l' ← seq_stage st l; seq_stages sts' l'
  end.

(** *** The states of a chain

    A chain is a row of nodes, the producer first and then the stages that
    have been started, node [k] writing to channel [k]. *)

Inductive phase : Type :=
  | Recv                (* waiting for its input channel *)
  | Send (v : T)        (* holding the element received, about to send *)
  | Closing             (* has seen its input closed *)
  | Exited.

Inductive node : Type :=
  | NSrc (rest : option (list T))   (* to_chan's goroutine; [None] once it has exited *)
  | NStage (st : stage) (ph : phase).

Definition stage_thread (st : stage) (from to : chan) (ph : phase) : goroutine :=
  match st, ph with
  | Map f, Recv => G_chan (Chan.G_mapchan f from to)
  | Map f, Send v => G_chan (Chan.G_mapchan_send f from to v)
  | Map f, Closing => G_chan (Chan.G_mapchan_close to)
  | Map f, Exited => G_chan Chan.G_exit
  | Filter f, Recv => G_filterchan f from to
  | Filter f, Send v => G_filterchan_send f from to v
  | Filter f, Closing => G_filterchan_close to
  | Filter f, Exited => G_exit
  | Remove f, Recv => G_removechan f from to
  | Remove f, Send v => G_removechan_send f from to v
  | Remove f, Closing => G_removechan_close to
  | Remove f, Exited => G_exit
  end.

Definition node_thread (k : nat) (n : node) : goroutine :=
  match n with
  | NSrc (Some rest) => G_chan (Chan.G_to_chan rest k)
  | NSrc None => G_chan Chan.G_exit
  | NStage st ph => stage_thread st (pred k) k ph
  end.

Fixpoint node_threads (k : nat) (ns : list node) : list goroutine :=
  match ns with
  | [] => []
  | n :: ns' => node_thread k n :: node_threads (S k) ns'
  end.

(** What a stage lets through, what it sends for an element it holds, and
    where it stands after receiving one. *)
Definition sem (st : stage) (l : list T) : list T :=
  match st with
  | Map f => f <$> l
  | Filter f => List.filter f l
  | Remove f => List.filter (λ x, negb (f x)) l
  end.

Definition emit (st : stage) (v : T) : T :=
  match st with
  | Map f => f v
  | Filter _ | Remove _ => v
  end.

Definition after_recv (st : stage) (v : T) : phase :=
  match st with
  | Map _ => Send v
  | Filter f => if f v then Send v else Recv
  | Remove f => if negb (f v) then Send v else Recv
  end.

Definition pending (n : node) : list T :=
  match n with
  | NSrc (Some rest) => rest
  | NStage st (Send v) => [emit st v]
  | _ => []
  end.

Definition through (n : node) (l : list T) : list T :=
  match n with
  | NSrc _ => []
  | NStage st _ => sem st l
  end.

Definition exited (n : node) : bool :=
  match n with
  | NSrc None | NStage _ Exited => true
  | _ => false
  end.

Definition needs_up (n : node) : bool :=
  match n with
  | NStage _ Closing | NStage _ Exited => true
  | _ => false
  end.

Definition is_recv (n : node) : bool :=
  match n with
  | NStage _ Recv => true
  | _ => false
  end.

Definition kind (n : node) : option stage :=
  match n with
  | NSrc _ => None
  | NStage st _ => Some st
  end.

(** The moves of a node. *)
Definition node_send (n : node) : option (T * node) :=
  match n with
  | NSrc (Some (v :: rest)) => Some (v, NSrc (Some rest))
  | NStage st (Send v) => Some (emit st v, NStage st Recv)
  | _ => None
  end.

Definition node_close (n : node) : option node :=
  match n with
  | NSrc (Some []) => Some (NSrc None)
  | NStage st Closing => Some (NStage st Exited)
  | _ => None
  end.

(** What is still to come out of the last channel, given what comes in at
    the first node. *)
Fixpoint flow (up : list T) (ns : list node) : list T :=
  match ns with
  | [] => up
  | n :: ns' => flow (pending n ++ through n up) ns'
  end.

(** A stage gives up only after the node before it has exited. *)
Fixpoint wf (up : bool) (ns : list node) : Prop :=
  match ns with
  | [] => True
  | n :: ns' => (needs_up n = true → up = true) ∧ wf (exited n) ns'
  end.

Fixpoint sems (sts : list stage) (l : list T) : list T :=
  match sts with
  | [] => l
  | st :: sts' => sems sts' (sem st l)
  end.

(** Main in a chain: reading the last channel, or back with its result. *)
Inductive reader : Type :=
  | MRead (out : list T)
  | MDone (out : list T).

Definition main_thread (todo : list stage) (c : chan) (m : reader) : goroutine :=
  match m with
  | MDone out => G_chan (Chan.G_return out)
  | MRead out =>
      match todo with
      | [] => G_chan (Chan.G_from_chan c out)
      | _ => call_stages todo c
      end
  end.

Definition conf (todo : list stage) (m : reader) (ns : list node) : config :=
  Config (exited <$> ns)
         (main_thread todo (pred (length ns)) m :: node_threads 0 ns)
         false.

Definition reader_ok (sts started todo : list stage) (s : list T)
    (m : reader) (ns : list node) : Prop :=
  match m with
  | MRead out =>
      (todo ≠ [] → out = []) ∧ out ++ flow [] ns = sems started s
  | MDone out =>
      todo = [] ∧ out = sems sts s ∧ Forall (λ n, exited n = true) ns
  end.

(** A row of nodes that fits the chain: the stages started so far in their
    order behind the producer, and the rest still to start. *)
Definition nodes_ok (sts : list stage) (s : list T)
    (todo : list stage) (m : reader) (ns : list node) : Prop :=
  ∃ started,
    sts = started ++ todo ∧
    kind <$> ns = None :: (Some <$> started) ∧
    wf false ns ∧
    reader_ok sts started todo s m ns.

(** The states [pipeline sts s] can reach. *)
Inductive chain_inv (sts : list stage) (s : list T) : config → Prop :=
  | CI_start :
      chain_inv sts s (Config [] [G_call_to_chan s (call_stages sts)] false)
  | CI_nodes todo m ns :
      nodes_ok sts s todo m ns →
      chain_inv sts s (conf todo m ns).

(** The steps each goroutine of a chain of [N] stages still has to take,
    at most. *)
Fixpoint weight (N : nat) (g : goroutine) : nat :=
  match g with
  | G_chan (Chan.G_to_chan rest _) => (N + 1) * length rest + 1
  | G_chan (Chan.G_mapchan _ _ _) => 2
  | G_chan (Chan.G_mapchan_send _ _ to _) => 2 + (N + 1 - to)
  | G_chan (Chan.G_mapchan_close _) => 1
  | G_chan (Chan.G_from_chan _ _) => 1
  | G_chan _ => 0
  | G_call_to_chan inp k => (N + 1) * length inp + 2 + weight N (k 0%nat)
  | G_call_mapchanT _ _ k => 3 + weight N (k 0%nat)
  | G_call_filterchanT _ _ k => 3 + weight N (k 0%nat)
  | G_call_removechanT _ _ k => 3 + weight N (k 0%nat)
  | G_filterchan _ _ _ => 2
  | G_filterchan_send _ _ to _ => 2 + (N + 1 - to)
  | G_filterchan_close _ => 1
  | G_removechan _ _ _ => 2
  | G_removechan_send _ _ to _ => 2 + (N + 1 - to)
  | G_removechan_close _ => 1
  | G_exit => 0
  end.

Definition measure (N : nat) (σ : config) : nat :=
  sum_list_with (weight N) (threads σ).

(** A channel that is closed while no goroutine but main can still act. *)
Definition drained (c : chan) (σ : config) : Prop :=
  crashed σ = false ∧
  closed σ !! c = Some true ∧
  (0 < length (threads σ))%nat ∧
  ∀ i g, i ≠ 0%nat → threads σ !! i = Some g → next g = AHalt.

(** Where [from_chan(filterchanT(even, to_chan([1, 2])))] ends. *)
Definition filter_example_end : config :=
  Config [true; true] [G_chan (Chan.G_return [2]); G_chan Chan.G_exit; G_exit] false.

End Stages.

(** ** After [pmapT] has returned

    Once main is back from [wg.Wait()], the counter is zero and there is a
    worker for every element. *)
Definition pmap_settled (s : list T) (σ : ParMap.state) : Prop :=
  ∀ out, ParMap.main σ = ParMap.M_return out →
    ParMap.wg σ = 0 ∧ length (ParMap.workers σ) = length s.

(** Where [pmapT(double, [5])] ends, and [pmapT(double, [1, 2])] with both
    workers started and neither run yet. *)
Definition pmap_example_end : ParMap.state :=
  ParMap.State [10] 0 (ParMap.M_return [10]) [ParMap.W_exit] false.

Definition pmap_example_started : ParMap.state :=
  ParMap.State [0; 0] 2 (ParMap.M_loop double 2 [])
    [ParMap.W_run double 0 1; ParMap.W_run double 1 2] false.
(** ** Properties of the sequential functions *)

Lemma wrap_id (z : Z) : is_int z → wrap z = z.
Proof.
  unfold is_int, int_min, int_max, wrap. intros Hz.
  rewrite Z.mod_small; lia.
Qed.

Lemma int_sub_1_pos (n : Z) : 0 < n → is_int n → int_sub n 1 = n - 1 ∧ is_int (n - 1).
Proof.
  intros Hpos Hn. assert (is_int (n - 1)) as Hn'.
  { unfold is_int, int_min, int_max in *. lia. }
  split; [apply wrap_id|]; done.
Qed.

Section seq_props.
Implicit Types (f : T → T) (p : T → bool) (s from to : list T).

Lemma store_app_head (done : list T) (x y : T) (rest : list T) :
  store (done ++ x :: rest) (length done) y = Some ((done ++ [y]) ++ rest).
Proof.
  unfold store. rewrite decide_True.
  - f_equal. rewrite <- (Nat.add_0_r (length done)), insert_app_r.
    by rewrite <- app_assoc.
  - rewrite length_app. simpl. lia.
Qed.

Lemma mapT_loop_spec f from (done rest : list T) :
  length rest = length from →
  mapT_loop f (length done) from (done ++ rest) = Some (done ++ (f <$> from)).
Proof.
  revert done rest. induction from as [|v from IH]; intros done rest Hlen.
  - destruct rest; [|done]. by rewrite !app_nil_r.
  - destruct rest as [|x rest]; [done|]. simpl.
    rewrite store_app_head. simpl.
    replace (S (length done)) with (length (done ++ [f v])).
    + rewrite IH by (simpl in Hlen; lia). by rewrite <- app_assoc.
    + rewrite length_app. simpl. lia.
Qed.

Lemma mapT_spec f s : mapT f s = Some (f <$> s).
Proof.
  unfold mapT, make.
  apply (mapT_loop_spec f s [] (replicate (length s) 0)).
  by rewrite length_replicate.
Qed.

Lemma filterT_loop_spec p from to :
  filterT_loop p from to = to ++ List.filter p from.
Proof.
  revert to. induction from as [|v from IH]; intros to; simpl.
  - by rewrite app_nil_r.
  - rewrite IH. destruct (p v); [|done]. by rewrite <- app_assoc.
Qed.

Lemma filterT_spec p s : filterT p s = List.filter p s.
Proof. unfold filterT. by rewrite filterT_loop_spec. Qed.

Lemma removeT_loop_spec p from to :
  removeT_loop p from to = to ++ List.filter (λ x, negb (p x)) from.
Proof.
  revert to. induction from as [|v from IH]; intros to; simpl.
  - by rewrite app_nil_r.
  - rewrite IH. destruct (p v); simpl; [done|]. by rewrite <- app_assoc.
Qed.

Lemma removeT_spec p s : removeT p s = List.filter (λ x, negb (p x)) s.
Proof. unfold removeT. by rewrite removeT_loop_spec. Qed.

Lemma filter_remove_interleaved p s :
  interleaved (List.filter p s) (List.filter (λ x, negb (p x)) s) s.
Proof.
  induction s as [|x s IH]; simpl; [constructor|].
  destruct (p x); simpl; by constructor.
Qed.

Lemma interleaved_length (l1 l2 l : list T) :
  interleaved l1 l2 l → (length l1 + length l2 = length l)%nat.
Proof. induction 1; simpl; lia. Qed.

Lemma interleaved_sublist_l (l1 l2 l : list T) : interleaved l1 l2 l → sublist l1 l.
Proof. induction 1; by constructor. Qed.

Lemma interleaved_sublist_r (l1 l2 l : list T) : interleaved l1 l2 l → sublist l2 l.
Proof. induction 1; by constructor. Qed.

Lemma interleaved_Permutation (l1 l2 l : list T) : interleaved l1 l2 l → l1 ++ l2 ≡ₚ l.
Proof.
  induction 1 as [|x l1 l2 l _ IH|x l1 l2 l _ IH]; simpl; [done| |].
  - by rewrite IH.
  - by rewrite <- Permutation_middle, IH.
Qed.

(** Once the counter is not positive, [drop] copies what is left. *)
Lemma drop_loop_nonpos (n : Z) from to : n ≤ 0 → drop_loop n from to = to ++ from.
Proof.
  intros Hn. revert to. induction from as [|v from IH]; intros to; simpl.
  - by rewrite app_nil_r.
  - destruct (0 <? n) eqn:E; [lia|]. rewrite IH. by rewrite <- app_assoc.
Qed.

(** [take] and [drop] test the same counter and step it the same way, so
    they cut the slice at the same place, whatever the counter is. *)
Lemma take_drop_loop_split (n : Z) from (a b : list T) :
  ∃ k : nat, take_loop n from a = a ++ firstn k from
           ∧ drop_loop n from b = b ++ skipn k from.
Proof.
  revert n a b. induction from as [|v from IH]; intros n a b.
  - exists 0%nat. simpl. by rewrite !app_nil_r.
  - simpl. destruct (n <=? 0) eqn:E1.
    + exists 0%nat. simpl. rewrite app_nil_r. split; [done|].
      destruct (0 <? n) eqn:E2; [lia|].
      rewrite drop_loop_nonpos by lia. by rewrite <- app_assoc.
    + destruct (0 <? n) eqn:E2; [|lia].
      destruct (IH (int_sub n 1) (a ++ [v]) b) as (k & Ht & Hd).
      exists (S k). simpl. rewrite Ht, Hd. by rewrite <- app_assoc.
Qed.

Lemma take_drop_app (n : Z) s : take n s ++ drop n s = s.
Proof.
  unfold take, drop.
  destruct (take_drop_loop_split n s (make 0) (make 0)) as (k & -> & ->).
  simpl. apply firstn_skipn.
Qed.

Lemma take_loop_spec (n : Z) from to :
  is_int n → take_loop n from to = to ++ firstn (Z.to_nat n) from.
Proof.
  revert n to. induction from as [|v from IH]; intros n to Hn; simpl.
  - by rewrite firstn_nil, app_nil_r.
  - destruct (n <=? 0) eqn:E.
    + replace (Z.to_nat n) with 0%nat by lia. simpl. by rewrite app_nil_r.
    + destruct (int_sub_1_pos n) as [-> Hn']; [lia|done|].
      rewrite IH by done. replace (Z.to_nat n) with (S (Z.to_nat (n - 1))) by lia.
      simpl. by rewrite <- app_assoc.
Qed.

Lemma drop_loop_spec (n : Z) from to :
  is_int n → drop_loop n from to = to ++ skipn (Z.to_nat n) from.
Proof.
  revert n to. induction from as [|v from IH]; intros n to Hn; simpl.
  - by rewrite skipn_nil, app_nil_r.
  - destruct (0 <? n) eqn:E.
    + destruct (int_sub_1_pos n) as [-> Hn']; [lia|done|].
      rewrite IH by done. by replace (Z.to_nat n) with (S (Z.to_nat (n - 1))) by lia.
    + replace (Z.to_nat n) with 0%nat by lia. simpl.
      rewrite drop_loop_nonpos by lia. by rewrite <- app_assoc.
Qed.

Lemma foldlT_fold_left g (z : T) s : foldlT g z s = fold_left g s z.
Proof. revert z. induction s as [|x s IH]; intros z; simpl; [done|apply IH]. Qed.

Lemma foldlT_snoc g (z : T) s (x : T) : foldlT g z (s ++ [x]) = g (foldlT g z s) x.
Proof. revert z. induction s as [|y s IH]; intros z; simpl; [done|apply IH]. Qed.

Lemma foldrT_fold_right g (z : T) s : foldrT g z s = fold_right g z s.
Proof. induction s as [|x s IH]; simpl; [done|by rewrite IH]. Qed.

Lemma foldlT_frames_spec g s : ∀ (d : nat) (z : T),
  foldlT_frames d g z s =
    if decide (length s ≤ d)%nat then Ret (foldlT g z s) else StackOverflow.
Proof.
  induction s as [|x s IH]; intros d z.
  - destruct d; cbn [foldlT_frames foldrT_frames length Nat.eqb];
      case_decide; [done|lia|done|lia].
  - destruct d as [|d]; cbn [foldlT_frames foldrT_frames length Nat.eqb lookup list_lookup skipn].
    + case_decide; [lia|done].
    + rewrite IH. cbn [length]. repeat case_decide; first [done|lia].
Qed.

Lemma foldrT_frames_spec g s : ∀ (d : nat) (z : T),
  foldrT_frames d g z s =
    if decide (length s ≤ d)%nat then Ret (foldrT g z s) else StackOverflow.
Proof.
  induction s as [|x s IH]; intros d z.
  - destruct d; cbn [foldlT_frames foldrT_frames length Nat.eqb];
      case_decide; [done|lia|done|lia].
  - destruct d as [|d]; cbn [foldlT_frames foldrT_frames length Nat.eqb lookup list_lookup skipn].
    + case_decide; [lia|done].
    + rewrite IH. cbn [length]. repeat case_decide; first [done|lia].
Qed.
End seq_props.


(** The calls of [main] on its data set. *)

Example main_take : take 3 dataset = [1; 2; 3].
Proof. reflexivity. Qed.

Example main_drop : drop 3 dataset = [4; 5; 6; 7; 8; 9; 10].
Proof. reflexivity. Qed.

Example main_filter_even : filterT even dataset = [2; 4; 6; 8; 10].
Proof. reflexivity. Qed.

Example main_remove_even : removeT even dataset = [1; 3; 5; 7; 9].
Proof. reflexivity. Qed.

Example main_map_double : mapT double dataset
  = Some [2; 4; 6; 8; 10; 12; 14; 16; 18; 20].
Proof. reflexivity. Qed.

Example main_foldl_sub : foldlT sub 0 dataset = -55.
Proof. reflexivity. Qed.

Example main_foldr_sub : foldrT sub 0 dataset = -5.
Proof. reflexivity. Qed.

Example sub_wraps : sub int_min 1 = int_max.
Proof. reflexivity. Qed.


(** ** More properties of the sequential functions *)

Section seq_more.
Implicit Types (s : list T).

Lemma wrap_wrap_add_l (a b : Z) : wrap (wrap a + b) = wrap (a + b).
Proof.
  unfold wrap. f_equal.
  replace ((a + 2 ^ 63) mod 2 ^ 64 - 2 ^ 63 + b + 2 ^ 63)
    with ((a + 2 ^ 63) mod 2 ^ 64 + b) by lia.
  rewrite Zplus_mod_idemp_l. f_equal. lia.
Qed.

Lemma wrap_mod (a : Z) : wrap a mod 2 ^ 64 = a mod 2 ^ 64.
Proof.
  unfold wrap. rewrite Zminus_mod, Zmod_mod, <- Zminus_mod. f_equal. lia.
Qed.

Lemma wrap_eq_mod (a b : Z) : a mod 2 ^ 64 = b mod 2 ^ 64 → wrap a = wrap b.
Proof.
  intros Hab. unfold wrap. f_equal.
  rewrite (Zplus_mod a), (Zplus_mod b), Hab. done.
Qed.

Lemma add_comm (x y : T) : add x y = add y x.
Proof. unfold add. by rewrite Z.add_comm. Qed.

Lemma add_assoc (x y z : T) : add (add x y) z = add x (add y z).
Proof.
  unfold add. rewrite wrap_wrap_add_l.
  rewrite (Z.add_comm x (wrap (y + z))), wrap_wrap_add_l. f_equal. lia.
Qed.

Lemma mult_comm (x y : T) : mult x y = mult y x.
Proof. unfold mult. by rewrite Z.mul_comm. Qed.

Lemma mult_assoc (x y z : T) : mult (mult x y) z = mult x (mult y z).
Proof.
  unfold mult. apply wrap_eq_mod.
  rewrite (Zmult_mod (wrap (x * y))), wrap_mod, <- Zmult_mod.
  rewrite (Zmult_mod x (wrap (y * z))), wrap_mod, <- Zmult_mod.
  f_equal. lia.
Qed.

Lemma store_at_app_head (done : list T) (x y : T) (rest : list T) :
  store_at (done ++ x :: rest) (Z.of_nat (length done)) y
    = Some ((done ++ [y]) ++ rest).
Proof.
  unfold store_at. rewrite decide_True by lia.
  rewrite Nat2Z.id. apply store_app_head.
Qed.

Lemma reverse_loop_spec (rest p : list T) :
  Z.of_nat (length p + length rest) ≤ int_max →
  reverse_loop (Z.of_nat (length p + length rest)) (length p) rest
               (replicate (length rest) 0 ++ rev p)
    = Some (rev rest ++ rev p).
Proof.
  revert p. induction rest as [|v rest IH]; intros p Hlen; [done|].
  cbn [reverse_loop length].
  assert (int_sub (int_sub (Z.of_nat (length p + S (length rest))) 1)
                  (Z.of_nat (length p)) = Z.of_nat (length (replicate (length rest) 0)))
    as ->.
  { rewrite length_replicate. unfold int_sub.
    rewrite (wrap_id (_ - 1)), wrap_id; unfold is_int, int_min, int_max in *;
      cbn [length] in Hlen; lia. }
  rewrite replicate_S_end, <- app_assoc. cbn [app].
  rewrite store_at_app_head. cbn [mbind option_bind].
  specialize (IH (p ++ [v])).
  rewrite length_app, rev_app_distr in IH. cbn [length rev app] in IH.
  replace (length p + 1 + length rest)%nat with (length p + S (length rest))%nat in IH
    by lia.
  replace (length p + 1)%nat with (S (length p)) in IH by lia.
  rewrite <- !app_assoc. cbn [app].
  rewrite IH by (cbn [length] in Hlen; lia).
  cbn [rev]. by rewrite <- app_assoc.
Qed.

Lemma reverse_rev s :
  Z.of_nat (length s) ≤ int_max → reverse s = Some (rev s).
Proof.
  intros Hlen. unfold reverse, make.
  pose proof (reverse_loop_spec s [] Hlen) as H. cbn [length rev Nat.add] in H.
  by rewrite !app_nil_r in H.
Qed.

Lemma foldlT_foldrT_rev (g : T → T → T) (z : T) s :
  foldlT g z s = foldrT (λ x a, g a x) z (rev s).
Proof.
  rewrite foldlT_fold_left, foldrT_fold_right. symmetry. apply fold_left_rev_right.
Qed.

Lemma foldrT_comm_step (g : T → T → T) (z x : T) s :
  (∀ a b, g a b = g b a) →
  (∀ a b c, g (g a b) c = g a (g b c)) →
  foldrT g (g z x) s = g (foldrT g z s) x.
Proof.
  intros Hcomm Hassoc. induction s as [|y s IH]; [done|].
  cbn [foldrT]. rewrite IH.
  rewrite <- Hassoc. done.
Qed.

Lemma foldlT_foldrT_comm (g : T → T → T) (z : T) s :
  (∀ a b, g a b = g b a) →
  (∀ a b c, g (g a b) c = g a (g b c)) →
  foldlT g z s = foldrT g z s.
Proof.
  intros Hcomm Hassoc. revert z. induction s as [|x s IH]; intros z; [done|].
  cbn [foldlT foldrT]. rewrite IH, foldrT_comm_step by done.
  apply Hcomm.
Qed.

Lemma filter_filter_same (p : T → bool) s :
  List.filter p (List.filter p s) = List.filter p s.
Proof.
  induction s as [|x s IH]; [done|]. cbn [List.filter].
  destruct (p x) eqn:E; [|done]. cbn [List.filter]. by rewrite E, IH.
Qed.

Lemma filter_filter_neg (p q : T → bool) s :
  (∀ x, p x = true → q x = false) →
  List.filter q (List.filter p s) = [].
Proof.
  intros Hpq. induction s as [|x s IH]; [done|]. cbn [List.filter].
  destruct (p x) eqn:E; [|done]. cbn [List.filter]. by rewrite (Hpq x E).
Qed.

End seq_more.
(** ** Proving that every schedule returns *)

Section runs.
Context {S R : Type} (step : S → S → Prop) (result : S → option R).

(** An invariant with a measure that every step lowers, and progress
    wherever the caller has not returned yet. *)
Lemma always_returns_by_invariant (Inv : S → Prop) (m : S → nat) (r : R) :
  (∀ σ σ', Inv σ → step σ σ' → Inv σ' ∧ (m σ' < m σ)%nat) →
  (∀ σ, Inv σ → result σ = Some r ∨ (result σ = None ∧ ∃ σ', step σ σ')) →
  ∀ σ, Inv σ → always_returns step result σ r.
Proof.
  intros Hstep Hprog σ. remember (m σ) as n eqn:Hn. revert σ Hn.
  induction (lt_wf n) as [n _ IH]. intros σ -> Hσ.
  destruct (Hprog σ Hσ) as [Hr|[Hr Hex]].
  - by apply ar_now.
  - apply ar_later; [done..|]. intros σ' Hσ'.
    destruct (Hstep σ σ' Hσ Hσ') as [Hinv Hlt].
    by apply (IH (m σ')).
Qed.

Lemma invariant_rtc (Inv : S → Prop) :
  (∀ σ σ', Inv σ → step σ σ' → Inv σ') →
  ∀ σ σ', rtc step σ σ' → Inv σ → Inv σ'.
Proof. intros Hstep σ σ' Hrtc. induction Hrtc; eauto. Qed.
End runs.

(** ** Channel pipelines *)

Section chan_props.
Import Chan.

(** Case analysis of a step out of a state whose threads are listed. *)
Local Ltac step_cases :=
  repeat match goal with
    | H : mapper_at _ _ _ |- _ => inversion H; clear H; subst
    | H : threads (Config _ _ _) !! _ = _ |- _ => cbn [threads] in H
    | H : closed (Config _ _ _) !! _ = _ |- _ => cbn [closed] in H
    | H : [] !! _ = Some _ |- _ => by rewrite lookup_nil in H
    | H : (_ :: _) !! ?i = Some _ |- _ =>
        destruct i as [|i]; cbn [lookup list_lookup] in H
    | H : Some _ = Some _ |- _ => simplify_eq
    | H : next (G_to_chan ?r _) = _ |- _ =>
        destruct r; cbn [next] in H; simplify_eq
    | H : next _ = _ |- _ =>
        cbn [next] in H; unfold to_chan, mapchanT in H; simplify_eq
    end.

Lemma roundtrip_start (s : list T) : roundtrip_inv s (roundtrip s).
Proof. apply RI_start. Qed.

Lemma roundtrip_inv_step (s : list T) (σ σ' : config) :
  roundtrip_inv s σ → step σ σ' → roundtrip_inv s σ' ∧ (measure σ' < measure σ)%nat.
Proof.
  intros Hinv Hstep.
  destruct Hinv as [|out rest Hs| |]; inversion Hstep; clear Hstep; subst; step_cases;
    try done; try discriminate.
  all: cbn [insert list_insert closed threads length app from_chan].
  all: (split; [|unfold measure; simpl; lia]).
  - by apply (RI_open s [] s).
  - apply RI_open. by rewrite <- app_assoc.
  - rewrite app_nil_r. apply RI_closed.
  - apply RI_done.
Qed.

Lemma roundtrip_inv_progress (s : list T) (σ : config) :
  roundtrip_inv s σ → result σ = Some s ∨ (result σ = None ∧ ∃ σ', step σ σ').
Proof.
  intros [|out rest Hs| |].
  - right. split; [done|]. eexists. by eapply (step_go _ 0).
  - right. split; [done|]. destruct rest as [|n rest].
    + eexists. by eapply (step_close _ 1).
    + eexists. by eapply (step_comm _ 1 0).
  - right. split; [done|]. eexists. by eapply (step_recv_closed _ 0).
  - by left.
Qed.

Lemma roundtrip_inv_result (s : list T) (σ : config) (r : list T) :
  roundtrip_inv s σ → result σ = Some r →
  σ = Config [true] [G_return s; G_exit] false.
Proof. by intros [|out rest Hs| |] Hr. Qed.

Lemma map_pipeline_start (f : T → T) (s : list T) : map_inv f s (map_pipeline f s).
Proof. apply MI_start. Qed.

Lemma map_inv_step (f : T → T) (s : list T) (σ σ' : config) :
  map_inv f s σ → step σ σ' → map_inv f s σ' ∧ (measure σ' < measure σ)%nat.
Proof.
  intros Hinv Hstep.
  destruct Hinv as [| |Hnil|out m hand rest Hm Hs|out m hand Hm Hs| | |];
    inversion Hstep; clear Hstep; subst; step_cases;
    try done; try discriminate.
  all: cbn [insert list_insert closed threads length app from_chan].
  all: (split; [|unfold measure; simpl; lia]).
  - apply MI_producer.
  - apply (MI_open f s [] _ [] s); [apply MA_recv|done].
  - by apply MI_producer_gone.
  - apply (MI_half f [] [] _ []); [apply MA_recv|done].
  - eapply MI_open; [apply MA_send|]. by rewrite <- Hs.
  - eapply MI_open; [apply MA_recv|]. rewrite <- Hs. by rewrite <- app_assoc.
  - eapply MI_half; [apply MA_recv|]. by rewrite <- Hs.
  - eapply MI_half; [apply MA_send|]. by rewrite <- Hs.
  - eapply MI_half; [apply MA_recv|]. rewrite <- Hs. by rewrite app_nil_r.
  - rewrite app_nil_r in Hs. subst out. apply MI_closing.
  - apply MI_closed.
  - apply MI_done.
Qed.

Lemma map_inv_progress (f : T → T) (s : list T) (σ : config) :
  map_inv f s σ → result σ = Some (f <$> s) ∨ (result σ = None ∧ ∃ σ', step σ σ').
Proof.
  intros [| |Hnil|out m hand rest Hm Hs|out m hand Hm Hs| | |].
  - right. split; [done|]. eexists. by eapply (step_go _ 0).
  - right. split; [done|]. eexists. by eapply (step_go _ 0).
  - right. split; [done|]. eexists. by eapply (step_go _ 0).
  - right. split; [done|]. destruct Hm as [|i].
    + destruct rest as [|n rest].
      * eexists. by eapply (step_close _ 1).
      * eexists. by eapply (step_comm _ 1 2).
    + eexists. by eapply (step_comm _ 2 0).
  - right. split; [done|]. destruct Hm as [|i].
    + eexists. by eapply (step_recv_closed _ 2).
    + eexists. by eapply (step_comm _ 2 0).
  - right. split; [done|]. eexists. by eapply (step_close _ 2).
  - right. split; [done|]. eexists. by eapply (step_recv_closed _ 0).
  - by left.
Qed.

Lemma map_inv_result (f : T → T) (s : list T) (σ : config) (r : list T) :
  map_inv f s σ → result σ = Some r →
  σ = Config [true; true] [G_return (f <$> s); G_exit; G_exit] false.
Proof. by intros [| |Hnil|out m hand rest Hm Hs|out m hand Hm Hs| | |] Hr. Qed.

Lemma roundtrip_always_returns (s : list T) :
  always_returns step result (roundtrip s) s.
Proof.
  apply (always_returns_by_invariant step result (roundtrip_inv s) measure).
  - apply roundtrip_inv_step.
  - apply roundtrip_inv_progress.
  - apply roundtrip_start.
Qed.

Lemma map_pipeline_always_returns (f : T → T) (s : list T) :
  always_returns step result (map_pipeline f s) (f <$> s).
Proof.
  apply (always_returns_by_invariant step result (map_inv f s) measure).
  - apply map_inv_step.
  - apply map_inv_progress.
  - apply map_pipeline_start.
Qed.

(** Reading a drained channel: the one step there is hands main the
    closed signal, and [from_chan] returns what it started with. *)
Lemma from_chan_drained (c : chan) (σ : config) :
  drained c σ → always_returns step result (resume (from_chan c) σ) [].
Proof.
  intros (Halive & Hc & Hlen & Hhalt).
  assert (threads (resume (from_chan c) σ) !! 0%nat = Some (G_from_chan c [])) as H0.
  { by apply list_lookup_insert_eq. }
  assert (∀ i g, i ≠ 0%nat → threads (resume (from_chan c) σ) !! i = Some g →
                 next g = AHalt) as Hother.
  { intros i g Hi Hg. cbn [resume threads] in Hg.
    rewrite list_lookup_insert_ne in Hg by done. by eapply Hhalt. }
  assert (∀ i g, threads (resume (from_chan c) σ) !! i = Some g →
                 next g = ARecv c (λ n ok, if ok then G_from_chan c ([] ++ [n])
                                           else G_return []) ∧ i = 0%nat
                 ∨ next g = AHalt) as Hnext.
  { intros i g Hg. destruct (decide (i = 0%nat)) as [->|Hne].
    - left. rewrite H0 in Hg. by simplify_eq.
    - right. by eapply Hother. }
  apply ar_later.
  - unfold result. cbn [resume crashed threads]. rewrite Halive.
    by rewrite list_lookup_insert_eq.
  - eexists. eapply (step_recv_closed _ 0); [exact Halive|exact H0|done|exact Hc].
  - intros σ' Hstep.
    inversion Hstep as [? i gi spawn k _ Hi Hni
                       |? i j gi gj c' v ki kj _ Hij Hi Hni Hj Hnj Hc'
                       |? j gj c' kj _ Hj Hnj Hc'
                       |? i gi c' ki _ Hi Hni Hc'
                       |? i gi c' v ki _ Hi Hni Hc'
                       |? i gi c' ki _ Hi Hni Hc']; subst.
    + destruct (Hnext i gi Hi) as [[Hn _]|Hn]; congruence.
    + destruct (Hnext i gi Hi) as [[Hn _]|Hn]; congruence.
    + destruct (Hnext j gj Hj) as [[Hn ->]|Hn]; [|congruence].
      rewrite Hn in Hnj. simplify_eq.
      apply ar_now. unfold result. cbn [threads crashed].
      rewrite list_lookup_insert_eq; [done|].
      cbn [resume threads]. by rewrite length_insert.
    + destruct (Hnext i gi Hi) as [[Hn _]|Hn]; congruence.
    + destruct (Hnext i gi Hi) as [[Hn _]|Hn]; congruence.
    + destruct (Hnext i gi Hi) as [[Hn _]|Hn]; congruence.
Qed.

End chan_props.

(** ** The parallel map *)

Section sums.
Context {A : Type} (g : A → nat).

Lemma sum_list_with_insert (l : list A) (k : nat) (w w' : A) :
  l !! k = Some w →
  (sum_list_with g (<[k := w']> l) + g w = sum_list_with g l + g w')%nat.
Proof.
  revert k. induction l as [|x l IH]; intros [|k] Hk; simplify_eq/=; [lia|].
  specialize (IH k Hk). lia.
Qed.

Lemma sum_list_with_snoc (l : list A) (w : A) :
  sum_list_with g (l ++ [w]) = (sum_list_with g l + g w)%nat.
Proof. rewrite sum_list_with_app. simpl. lia. Qed.
End sums.

Section pmap_props.
Import ParMap.

Lemma exited_le (ws : list worker) : (sum_list_with exited ws ≤ length ws)%nat.
Proof. induction ws as [|[] ws IH]; simpl; lia. Qed.

Lemma exited_lt (ws : list worker) (k : nat) (w : worker) :
  ws !! k = Some w → exited w = 0%nat → (sum_list_with exited ws < length ws)%nat.
Proof.
  revert k. induction ws as [|x ws IH]; intros [|k] Hk Hw; simplify_eq/=.
  - pose proof (exited_le ws). lia.
  - specialize (IH k Hk Hw). destruct x; simpl; lia.
Qed.

Lemma exited_all (ws : list worker) (k : nat) (w : worker) :
  sum_list_with exited ws = length ws → ws !! k = Some w → w = W_exit.
Proof.
  intros Hsum Hk. destruct w; [|  |done].
  - pose proof (exited_lt ws k _ Hk eq_refl). lia.
  - pose proof (exited_lt ws k _ Hk eq_refl). lia.
Qed.

Lemma exited_pending (ws : list worker) :
  (sum_list_with exited ws < length ws)%nat →
  ∃ k w, ws !! k = Some w ∧ w ≠ W_exit.
Proof.
  induction ws as [|x ws IH]; simpl; [lia|]. intros Hlt.
  destruct x.
  - by exists 0%nat, (W_run f i v).
  - by exists 0%nat, W_deferred.
  - destruct IH as (k & w & Hk & Hw); [simpl in Hlt; lia|]. by exists (S k), w.
Qed.

(** Where the loop stands: the element at hand and what is left after it. *)
Lemma skipn_cons_inv (s : list T) (i : nat) (v : T) (rest : list T) :
  skipn i s = v :: rest → s !! i = Some v ∧ skipn (S i) s = rest.
Proof.
  intros Hs. assert (s !! i = Some v) as Hi.
  { rewrite <- (Nat.add_0_r i), <- lookup_drop, Hs. done. }
  split; [done|]. rewrite (drop_S _ _ _ Hi) in Hs. by simplify_eq.
Qed.

Lemma skipn_nil_inv (s : list T) (i : nat) : skipn i s = [] → (length s ≤ i)%nat.
Proof. intros Hs. apply (f_equal length) in Hs. rewrite length_drop in Hs. simpl in Hs. lia. Qed.

Section with_input.
Context (f : T → T) (s : list T).

Lemma inv_workers_bound (σ : state) : inv f s σ → (length (workers σ) ≤ length s)%nat.
Proof.
  intros Hinv. destruct (decide (length (workers σ) ≤ length s)%nat) as [|Hgt]; [done|].
  destruct (lookup_lt_is_Some_2 (workers σ) (length s)) as [w Hw]; [lia|].
  destruct (inv_workers _ _ _ Hinv _ _ Hw) as (v & Hv & _).
  apply lookup_lt_Some in Hv. lia.
Qed.

Lemma pmapT_start : inv f s (pmapT f s).
Proof.
  split; simpl.
  - done.
  - unfold make. by rewrite length_replicate.
  - by unfold caller_ok.
  - intros k w Hk. by rewrite lookup_nil in Hk.
  - lia.
Qed.

(** When the counter is back at zero after the loop, every element has
    been written. *)
Lemma inv_all_written (σ : state) (i : nat) :
  inv f s σ → main σ = M_loop f i [] → wg σ = 0 → to σ = f <$> s.
Proof.
  intros Hinv Hmain Hwg.
  pose proof (inv_workers_bound σ Hinv) as Hbound.
  pose proof (inv_caller _ _ _ Hinv) as Hcaller. unfold caller_ok in Hcaller.
  rewrite Hmain in Hcaller. destruct Hcaller as (_ & -> & Hrest).
  apply skipn_nil_inv in Hrest.
  pose proof (inv_wg _ _ _ Hinv) as Hcount. rewrite Hwg in Hcount.
  apply list_eq. intros k. rewrite list_lookup_fmap.
  destruct (s !! k) as [v|] eqn:Hk; simpl.
  - destruct (lookup_lt_is_Some_2 (workers σ) k) as [w Hw].
    { apply lookup_lt_Some in Hk. lia. }
    assert (w = W_exit) as ->.
    { apply (exited_all (workers σ) k); [lia|done]. }
    destruct (inv_workers _ _ _ Hinv _ _ Hw) as (v' & Hv' & Hto).
    by simplify_eq.
  - apply lookup_ge_None. rewrite (inv_length _ _ _ Hinv). by apply lookup_ge_None.
Qed.

Lemma inv_step (σ σ' : state) :
  inv f s σ → step σ σ' → inv f s σ' ∧ (measure σ' < measure σ)%nat.
Proof.
  intros Hinv Hstep.
  pose proof (inv_workers_bound σ Hinv) as Hbound.
  pose proof Hinv as [Halive Hlen Hcaller Hworkers Hwg].
  inversion Hstep as [? g i v rest _ Hmain
                     |? g i _ Hmain Hzero
                     |? k g i v to' _ Hk Hstore
                     |? k g i v _ Hk Hstore
                     |? k _ Hk Hpos
                     |? k _ Hk Hneg]; subst.
  - (* go *)
    unfold caller_ok in Hcaller. rewrite Hmain in Hcaller.
    destruct Hcaller as (-> & -> & Hrest).
    apply skipn_cons_inv in Hrest as [Hv Hrest].
    split.
    + split; simpl; [done|done| | |].
      * unfold caller_ok. simpl. rewrite length_app. simpl.
        rewrite Nat.add_1_r. done.
      * intros k w Hk. apply lookup_app_Some in Hk as [Hk|[Hge Hk]].
        { apply (Hworkers k w Hk). }
        apply list_lookup_singleton_Some in Hk as [Hk <-].
        assert (k = length (workers σ)) as -> by lia.
        exists v. done.
      * rewrite sum_list_with_snoc. simpl. lia.
    + unfold measure. simpl. rewrite Hmain, sum_list_with_snoc. simpl. lia.
  - (* wait *)
    split.
    + split; simpl; [done|done| |exact Hworkers|done].
      unfold caller_ok in *. simpl. rewrite Hmain in Hcaller.
      destruct Hcaller as (-> & _).
      by apply (inv_all_written σ i).
    + unfold measure. simpl. rewrite Hmain. simpl. lia.
  - (* store *)
    destruct (Hworkers k _ Hk) as (v0 & Hv0 & -> & -> & ->).
    unfold store in Hstore. case_decide as Hlt; [|done]. simplify_eq.
    split.
    + split; simpl; [done| | | |].
      * by rewrite length_insert.
      * unfold caller_ok in *. simpl. destruct (main σ); [|done].
        by rewrite length_insert.
      * intros k' w' Hk'. destruct (decide (k' = k)) as [->|Hne].
        { rewrite list_lookup_insert_eq in Hk' by (by eapply lookup_lt_Some).
          simplify_eq. exists v0. split; [done|]. simpl.
          by rewrite list_lookup_insert_eq. }
        rewrite list_lookup_insert_ne in Hk' by done.
        destruct (Hworkers k' w' Hk') as (v' & Hv' & Hw').
        exists v'. split; [done|]. destruct w'; simpl in *; [done|..];
          by rewrite list_lookup_insert_ne.
      * pose proof (sum_list_with_insert exited _ k _ W_deferred Hk) as Hsum.
        simpl in Hsum. lia.
    + unfold measure. simpl.
      pose proof (sum_list_with_insert weight _ k _ W_deferred Hk) as Hsum.
      simpl in Hsum. lia.
  - (* a store out of range *)
    destruct (Hworkers k _ Hk) as (v0 & Hv0 & -> & -> & ->).
    unfold store in Hstore. apply lookup_lt_Some in Hv0.
    rewrite decide_True in Hstore by lia. done.
  - (* the deferred Done *)
    split.
    + split; simpl; [done|done| | |].
      * unfold caller_ok in *. simpl. destruct (main σ); [|done].
        by rewrite length_insert.
      * intros k' w' Hk'. destruct (decide (k' = k)) as [->|Hne].
        { rewrite list_lookup_insert_eq in Hk' by (by eapply lookup_lt_Some).
          simplify_eq. apply (Hworkers k _ Hk). }
        rewrite list_lookup_insert_ne in Hk' by done.
        apply (Hworkers k' w' Hk').
      * pose proof (sum_list_with_insert exited _ k _ W_exit Hk) as Hsum.
        simpl in Hsum. lia.
    + unfold measure. simpl.
      pose proof (sum_list_with_insert weight _ k _ W_exit Hk) as Hsum.
      simpl in Hsum. lia.
  - (* a negative counter *)
    pose proof (exited_lt _ k _ Hk eq_refl). lia.
Qed.

Lemma inv_progress (σ : state) :
  inv f s σ → result σ = Some (f <$> s) ∨ (result σ = None ∧ ∃ σ', step σ σ').
Proof.
  intros Hinv.
  pose proof (inv_workers_bound σ Hinv) as Hbound.
  pose proof Hinv as [Halive Hlen Hcaller Hworkers Hwg].
  unfold result. rewrite Halive. unfold caller_ok in Hcaller.
  destruct (main σ) as [g i rest|out] eqn:Hmain; [|left; by subst].
  right. split; [done|]. destruct Hcaller as (-> & -> & Hrest).
  destruct rest as [|v rest].
  { destruct (decide (wg σ = 0)) as [Hzero|Hnz].
    { eexists. by eapply step_wait. }
    apply skipn_nil_inv in Hrest.
    pose proof (exited_le (workers σ)).
    destruct (exited_pending (workers σ)) as (k & w & Hk & Hw); [lia|].
    destruct w as [g i v| |]; [| |done].
    - destruct (Hworkers k _ Hk) as (v0 & Hv0 & -> & -> & ->).
      eexists. eapply step_store; [done..|].
      unfold store. apply lookup_lt_Some in Hv0. by rewrite decide_True by lia.
    - destruct (decide (0 ≤ wg σ - 1)).
      + eexists. by eapply step_done.
      + eexists. eapply step_done_panic; [done..|lia]. }
  eexists. by eapply step_go.
Qed.

Lemma pmapT_always_returns : always_returns step result (pmapT f s) (f <$> s).
Proof.
  apply (always_returns_by_invariant step result (inv f s) measure).
  - apply inv_step.
  - apply inv_progress.
  - apply pmapT_start.
Qed.

End with_input.
End pmap_props.


(** ** Chains of stages *)

Section stages_props.
Import Stages.

Lemma sem_nil (st : stage) : sem st [] = [].
Proof. by destruct st. Qed.

Lemma sem_app (st : stage) (a b : list T) : sem st (a ++ b) = sem st a ++ sem st b.
Proof. destruct st; simpl; [apply fmap_app|apply List.filter_app..]. Qed.

Lemma sem_recv (st : stage) (v : T) (l : list T) :
  pending (NStage st (after_recv st v)) ++ sem st l = sem st (v :: l).
Proof.
  destruct st as [f|f|f]; simpl; [done|by destruct (f v)..].
Qed.

Lemma sems_app (a b : list stage) (l : list T) : sems (a ++ b) l = sems b (sems a l).
Proof. revert l. induction a as [|st a IH]; intros l; simpl; [done|apply IH]. Qed.

Lemma seq_stages_sems (sts : list stage) (l : list T) :
  seq_stages sts l = Some (sems sts l).
Proof.
  revert l. induction sts as [|st sts IH]; intros l; simpl; [done|].
  assert (seq_stage st l = Some (sem st l)) as ->.
  { destruct st; simpl; [apply mapT_spec|by rewrite filterT_spec|by rewrite removeT_spec]. }
  simpl. apply IH.
Qed.

(** *** The flow through a row of nodes *)

Lemma flow_app (up : list T) (a b : list node) : flow up (a ++ b) = flow (flow up a) b.
Proof. revert up. induction a as [|n a IH]; intros up; simpl; [done|apply IH]. Qed.

Lemma flow_insert_same (up : list T) (ns : list node) (k : nat) (n n' : node) :
  ns !! k = Some n →
  pending n' = pending n →
  (∀ l, through n' l = through n l) →
  flow up (<[k := n']> ns) = flow up ns.
Proof.
  intros Hk Hp Ht. revert up k Hk.
  induction ns as [|n0 ns IH]; intros up [|k] Hk; simplify_eq/=.
  - by rewrite Hp, Ht.
  - by apply IH.
Qed.

Lemma flow_send_last (up : list T) (ns : list node) (k : nat) (n n' : node) (v : T) :
  ns !! k = Some n →
  S k = length ns →
  pending n = v :: pending n' →
  (∀ l, through n' l = through n l) →
  flow up ns = v :: flow up (<[k := n']> ns).
Proof.
  intros Hk Hlast Hp Ht. revert up k Hk Hlast.
  induction ns as [|n0 ns IH]; intros up [|k] Hk Hlast; simplify_eq/=.
  - destruct ns; [|done]. simpl. by rewrite Hp, Ht.
  - by apply IH.
Qed.

Lemma flow_comm (up : list T) (ns : list node) (k : nat) (n n' : node)
    (st : stage) (v : T) :
  ns !! k = Some n →
  ns !! S k = Some (NStage st Recv) →
  pending n = v :: pending n' →
  (∀ l, through n' l = through n l) →
  flow up (<[S k := NStage st (after_recv st v)]> (<[k := n']> ns)) = flow up ns.
Proof.
  intros Hk Hk' Hp Ht. revert up k Hk Hk'.
  induction ns as [|n0 ns IH]; intros up [|k] Hk Hk'; simplify_eq/=.
  - destruct ns as [|n1 ns]; simplify_eq/=.
    f_equal. rewrite Hp, Ht. exact (sem_recv st v _).
  - by apply IH.
Qed.

(** *** Who may have given up *)

Lemma wf_mono (b b' : bool) (ns : list node) :
  (b = true → b' = true) → wf b ns → wf b' ns.
Proof. destruct ns as [|n ns]; simpl; [done|]. intros Hb [Hn Hns]. auto. Qed.

Lemma wf_snoc (up : bool) (ns : list node) (n : node) :
  needs_up n = false → wf up ns → wf up (ns ++ [n]).
Proof.
  intros Hn. revert up. induction ns as [|n0 ns IH]; intros up; simpl.
  - intros _. split; [by rewrite Hn|done].
  - intros [H0 Hns]. split; [done|by apply IH].
Qed.

Lemma wf_insert (up : bool) (ns : list node) (k : nat) (n n' : node) :
  ns !! k = Some n →
  wf up ns →
  (exited n = true → exited n' = true) →
  (needs_up n' = true →
     needs_up n = true
     ∨ (k = 0%nat ∧ up = true)
     ∨ ∃ j m, k = S j ∧ ns !! j = Some m ∧ exited m = true) →
  wf up (<[k := n']> ns).
Proof.
  revert up k. induction ns as [|n0 ns IH]; intros up [|k] Hk Hwf He Hu;
    simplify_eq/=.
  - destruct Hwf as [H0 Hns]. split.
    + intros Hn'. destruct (Hu Hn') as [?|[[_ ?]|(j & m & ? & _)]]; auto; done.
    + by apply (wf_mono (exited n)).
  - destruct Hwf as [H0 Hns]. split; [done|].
    apply (IH _ _ Hk Hns He). intros Hn'.
    destruct (Hu Hn') as [?|[[? _]|(j & m & ? & Hj & Hm)]]; [by left|done|].
    simplify_eq. destruct j as [|j]; simplify_eq/=.
    + right. left. done.
    + right. right. by exists j, m.
Qed.

(** Behind a node that has exited nothing is to come. *)
Lemma flow_exited (up : bool) (src : list T) (ns : list node) (k : nat) (n : node) :
  wf up ns →
  (up = true → src = []) →
  ns !! k = Some n →
  S k = length ns →
  exited n = true →
  flow src ns = [].
Proof.
  revert up src k. induction ns as [|n0 ns IH]; intros up src k Hwf Hsrc Hk Hlast He;
    [done|].
  destruct Hwf as [H0 Hns].
  assert (exited n0 = true → pending n0 ++ through n0 src = []) as Hsrc'.
  { destruct n0 as [[rest|]|st []]; simpl; try done.
    intros _. rewrite Hsrc by auto. apply sem_nil. }
  destruct k as [|k]; simplify_eq/=.
  - destruct ns; [|done]. simpl. auto.
  - by eapply IH.
Qed.

(** When the last node has exited, every node has. *)
Lemma all_exited (up : bool) (ns : list node) (k : nat) (n : node) :
  wf up ns →
  (∀ j m, ns !! S j = Some m → kind m ≠ None) →
  ns !! k = Some n →
  S k = length ns →
  exited n = true →
  Forall (λ m, exited m = true) ns.
Proof.
  revert up k. induction ns as [|n0 ns IH]; intros up k Hwf Hst Hk Hlast He; [done|].
  destruct Hwf as [H0 Hns]. destruct k as [|k]; simplify_eq/=.
  - destruct ns; [|done]. by repeat constructor.
  - assert (Forall (λ m, exited m = true) ns) as Hall.
    { eapply (IH _ k); [done| |done|done|done].
      intros j m Hj. by apply (Hst (S j)). }
    constructor; [|done].
    destruct ns as [|n1 ns]; [done|]. destruct Hns as [H1 _].
    apply Forall_cons in Hall as [He1 _].
    apply H1. specialize (Hst 0%nat n1 eq_refl).
    by destruct n1 as [|st []].
Qed.

(** *** The threads of a row of nodes *)

Lemma node_threads_lookup (k0 : nat) (ns : list node) (i : nat) :
  node_threads k0 ns !! i = node_thread (k0 + i) <$> ns !! i.
Proof.
  revert k0 i. induction ns as [|n ns IH]; intros k0 [|i]; simpl; [done..| |].
  - by rewrite Nat.add_0_r.
  - rewrite IH. by rewrite Nat.add_succ_r.
Qed.

Lemma node_threads_insert (k0 : nat) (ns : list node) (i : nat) (n : node) :
  node_threads k0 (<[i := n]> ns) = <[i := node_thread (k0 + i) n]> (node_threads k0 ns).
Proof.
  revert k0 i. induction ns as [|n0 ns IH]; intros k0 [|i]; simpl; [done..| |].
  - by rewrite Nat.add_0_r.
  - rewrite IH. by rewrite Nat.add_succ_r.
Qed.

Lemma node_threads_snoc (k0 : nat) (ns : list node) (n : node) :
  node_threads k0 (ns ++ [n]) = node_threads k0 ns ++ [node_thread (k0 + length ns) n].
Proof.
  revert k0. induction ns as [|n0 ns IH]; intros k0; simpl.
  - by rewrite Nat.add_0_r.
  - rewrite IH. by rewrite Nat.add_succ_r.
Qed.

Lemma node_threads_length (k0 : nat) (ns : list node) :
  length (node_threads k0 ns) = length ns.
Proof. revert k0. induction ns as [|n ns IH]; intros k0; simpl; [done|by rewrite IH]. Qed.

Lemma exited_insert_same (ns : list node) (k : nat) (n n' : node) :
  ns !! k = Some n → exited n' = exited n →
  exited <$> <[k := n']> ns = exited <$> ns.
Proof.
  intros Hk He. rewrite list_fmap_insert, He.
  apply list_insert_id. by rewrite list_lookup_fmap, Hk.
Qed.

Lemma kind_insert_same (ns : list node) (k : nat) (n n' : node) :
  ns !! k = Some n → kind n' = kind n →
  kind <$> <[k := n']> ns = kind <$> ns.
Proof.
  intros Hk He. rewrite list_fmap_insert, He.
  apply list_insert_id. by rewrite list_lookup_fmap, Hk.
Qed.

(** *** What a node does next *)

Lemma node_send_inv (n n' : node) (v : T) :
  node_send n = Some (v, n') →
  pending n = v :: pending n' ∧ (∀ l, through n' l = through n l) ∧
  kind n' = kind n ∧ exited n = false ∧ exited n' = false ∧
  needs_up n' = false ∧ node_close n = None.
Proof. destruct n as [[[|x rest]|]|st []]; intros Hn; simplify_eq/=; done. Qed.

Lemma node_close_inv (n n' : node) :
  node_close n = Some n' →
  pending n = [] ∧ pending n' = [] ∧ (∀ l, through n' l = through n l) ∧
  kind n' = kind n ∧ exited n = false ∧ exited n' = true ∧
  (needs_up n' = true → needs_up n = true).
Proof. destruct n as [[[|x rest]|]|st []]; intros Hn; simplify_eq/=; done. Qed.

Lemma next_node_send (k : nat) (n : node) (c : chan) (v : T) (g : goroutine) :
  next (node_thread k n) = ASend c v g →
  c = k ∧ ∃ n', node_send n = Some (v, n') ∧ g = node_thread k n'.
Proof.
  destruct n as [[[|x rest]|]|[f|f|f] []]; intros Hn; simplify_eq/=;
    (split; [done|]); eexists; (split; [done|]); done.
Qed.

Lemma next_node_recv (k : nat) (n : node) (c : chan) (kj : T → bool → goroutine) :
  next (node_thread k n) = ARecv c kj →
  ∃ st, n = NStage st Recv ∧ c = pred k ∧
    (∀ v, kj v true = node_thread k (NStage st (after_recv st v))) ∧
    (∀ v, kj v false = node_thread k (NStage st Closing)).
Proof.
  destruct n as [[[|x rest]|]|[f|f|f] []]; intros Hn; simplify_eq/=.
  - exists (Map f). done.
  - exists (Filter f). split; [done|]. split; [done|]. split; [|done].
    intros v. simpl. by destruct (f v).
  - exists (Remove f). split; [done|]. split; [done|]. split; [|done].
    intros v. simpl. by destruct (f v).
Qed.

Lemma next_node_close (k : nat) (n : node) (c : chan) (g : goroutine) :
  next (node_thread k n) = AClose c g →
  c = k ∧ ∃ n', node_close n = Some n' ∧ g = node_thread k n'.
Proof.
  destruct n as [[[|x rest]|]|[f|f|f] []]; intros Hn; simplify_eq/=;
    (split; [done|]); eexists; (split; [done|]); done.
Qed.

Lemma next_node_go (k : nat) (n : node) (spawn k' : chan → goroutine) :
  next (node_thread k n) ≠ AGo spawn k'.
Proof. by destruct n as [[[|x rest]|]|[f|f|f] []]. Qed.

Lemma main_thread_call_stages (todo : list stage) (c : chan) :
  main_thread todo c (MRead []) = call_stages todo c.
Proof. by destruct todo. Qed.

Lemma next_main_go (todo : list stage) (c : chan) (m : reader)
    (spawn k : chan → goroutine) :
  next (main_thread todo c m) = AGo spawn k →
  ∃ st todo' out, todo = st :: todo' ∧ m = MRead out ∧
    spawn = (λ c', stage_thread st c c' Recv) ∧
    k = call_stages todo'.
Proof.
  destruct m as [out|out]; [|by simpl].
  destruct todo as [|[f|f|f] todo]; [by simpl| | |];
    intros Hn; simpl in Hn;
    unfold mapchanT, filterchanT, removechanT in Hn; simplify_eq.
  - by exists (Map f), todo, out.
  - by exists (Filter f), todo, out.
  - by exists (Remove f), todo, out.
Qed.

Lemma next_main_recv (todo : list stage) (c : chan) (m : reader)
    (c' : chan) (kj : T → bool → goroutine) :
  next (main_thread todo c m) = ARecv c' kj →
  ∃ out, todo = [] ∧ m = MRead out ∧ c' = c ∧
    (∀ v, kj v true = main_thread [] c (MRead (out ++ [v]))) ∧
    (∀ v, kj v false = main_thread [] c (MDone out)).
Proof.
  destruct m as [out|out]; [|by simpl]. destruct todo as [|[f|f|f] todo]; [|by simpl..].
  intros Hn; simplify_eq/=. by eexists.
Qed.

Lemma next_main_send (todo : list stage) (c : chan) (m : reader)
    (c' : chan) (v : T) (g : goroutine) :
  next (main_thread todo c m) ≠ ASend c' v g.
Proof. destruct m as [out|out]; [|by simpl]. destruct todo as [|[f|f|f] todo]; by simpl. Qed.

Lemma next_main_close (todo : list stage) (c : chan) (m : reader)
    (c' : chan) (g : goroutine) :
  next (main_thread todo c m) ≠ AClose c' g.
Proof. destruct m as [out|out]; [|by simpl]. destruct todo as [|[f|f|f] todo]; by simpl. Qed.

(** *** Weights *)

Lemma weight_call_stages (N : nat) (todo : list stage) (c : chan) :
  weight N (call_stages todo c) = (3 * length todo + 1)%nat.
Proof.
  revert c. induction todo as [|[f|f|f] todo IH]; intros c; simpl; [done|..];
    rewrite IH; lia.
Qed.

Lemma weight_main (N : nat) (todo : list stage) (c : chan) (m : reader) :
  weight N (main_thread todo c m) =
    match m with
    | MRead _ => (3 * length todo + 1)%nat
    | MDone _ => 0%nat
    end.
Proof.
  destruct m as [out|out]; [|by simpl]. destruct todo as [|st todo]; [done|].
  apply weight_call_stages.
Qed.

Lemma weight_node_send (N k : nat) (n n' : node) (v : T) :
  node_send n = Some (v, n') →
  (kind n = None → k = 0%nat) →
  weight N (node_thread k n) = (weight N (node_thread k n') + (N + 1 - k))%nat.
Proof.
  destruct n as [[[|x rest]|]|[f|f|f] []]; intros Hn Hk; simplify_eq/=; try lia.
  rewrite (Hk eq_refl). lia.
Qed.

Lemma weight_node_recv (N k : nat) (st : stage) (v : T) :
  (weight N (node_thread k (NStage st (after_recv st v)))
     ≤ weight N (node_thread k (NStage st Recv)) + (N + 1 - k))%nat.
Proof. destruct st as [f|f|f]; simpl; [lia|destruct (f v); simpl; lia..]. Qed.

Lemma weight_node_recv_closed (N k : nat) (st : stage) :
  weight N (node_thread k (NStage st Recv))
    = S (weight N (node_thread k (NStage st Closing))).
Proof. by destruct st. Qed.

Lemma weight_node_close (N k : nat) (n n' : node) :
  node_close n = Some n' →
  weight N (node_thread k n) = S (weight N (node_thread k n')).
Proof. destruct n as [[[|x rest]|]|[f|f|f] []]; intros Hn; simplify_eq/=; lia. Qed.

Lemma nodes_weight_insert (N : nat) (ns : list node) (k : nat) (n n' : node) :
  ns !! k = Some n →
  (sum_list_with (weight N) (node_threads 0 (<[k := n']> ns))
     + weight N (node_thread k n)
   = sum_list_with (weight N) (node_threads 0 ns) + weight N (node_thread k n'))%nat.
Proof.
  intros Hk. rewrite node_threads_insert. apply sum_list_with_insert.
  by rewrite node_threads_lookup, Hk.
Qed.

Lemma measure_conf (N : nat) (todo : list stage) (m : reader) (ns : list node) :
  measure N (conf todo m ns)
    = (weight N (main_thread todo (pred (length ns)) m)
       + sum_list_with (weight N) (node_threads 0 ns))%nat.
Proof. done. Qed.

(** *** The threads of a state of the chain *)

Lemma conf_thread (todo : list stage) (m : reader) (ns : list node)
    (i : nat) (g : goroutine) :
  threads (conf todo m ns) !! i = Some g →
  (i = 0%nat ∧ g = main_thread todo (pred (length ns)) m)
  ∨ ∃ k n, i = S k ∧ ns !! k = Some n ∧ g = node_thread k n.
Proof.
  destruct i as [|k]; simpl.
  - intros ?. simplify_eq. by left.
  - rewrite node_threads_lookup. intros Hk.
    apply fmap_Some in Hk as (n & Hn & ->). right. by exists k, n.
Qed.

Lemma conf_closed (todo : list stage) (m : reader) (ns : list node)
    (k : nat) (n : node) (b : bool) :
  ns !! k = Some n → closed (conf todo m ns) !! k = Some b → exited n = b.
Proof. simpl. rewrite list_lookup_fmap. intros ->. simpl. congruence. Qed.

Lemma conf_eq (todo : list stage) (m : reader) (ns : list node)
    (cl : list bool) (mt : goroutine) (nts : list goroutine) :
  cl = exited <$> ns →
  mt = main_thread todo (pred (length ns)) m →
  nts = node_threads 0 ns →
  Config cl (mt :: nts) false = conf todo m ns.
Proof. by intros -> -> ->. Qed.

Section chain.
Context (sts : list stage) (s : list T).

(** A stage is never the first node, and there are no more nodes than
    stages and the producer. *)
Lemma kinds_stage (ns : list node) (started : list stage) (k : nat) (st : stage)
    (ph : phase) :
  kind <$> ns = None :: (Some <$> started) →
  ns !! k = Some (NStage st ph) → ∃ j, k = S j.
Proof.
  intros Hkind Hk. destruct k as [|j]; [|by exists j].
  apply (f_equal (λ l, l !! 0%nat)) in Hkind.
  rewrite list_lookup_fmap, Hk in Hkind. done.
Qed.

Lemma kinds_src (ns : list node) (started : list stage) (k : nat) (n : node) :
  kind <$> ns = None :: (Some <$> started) →
  ns !! k = Some n → kind n = None → k = 0%nat.
Proof.
  intros Hkind Hk Hn. destruct k as [|j]; [done|].
  apply (f_equal (λ l, l !! S j)) in Hkind.
  rewrite list_lookup_fmap, Hk in Hkind. simpl in Hkind.
  rewrite list_lookup_fmap, Hn in Hkind. by destruct (started !! j).
Qed.

Lemma kinds_later (ns : list node) (started : list stage) (j : nat) (n : node) :
  kind <$> ns = None :: (Some <$> started) →
  ns !! S j = Some n → kind n ≠ None.
Proof. intros Hkind Hk Hn. by pose proof (kinds_src _ _ _ _ Hkind Hk Hn). Qed.

Lemma kinds_length (ns : list node) (started todo : list stage) :
  sts = started ++ todo →
  kind <$> ns = None :: (Some <$> started) →
  length ns = S (length started) ∧ (length ns ≤ S (length sts))%nat.
Proof.
  intros -> Hkind. apply (f_equal length) in Hkind.
  rewrite length_fmap in Hkind. simpl in Hkind. rewrite length_fmap in Hkind.
  rewrite length_app. lia.
Qed.

Lemma done_exited (todo : list stage) (out : list T) (ns : list node)
    (k : nat) (n : node) :
  nodes_ok sts s todo (MDone out) ns → ns !! k = Some n → exited n = true.
Proof.
  intros (started & _ & _ & _ & _ & _ & Hall) Hk.
  by apply (Forall_lookup_1 _ _ _ _ Hall Hk).
Qed.

(** Main starts the next stage. *)
Lemma inv_go (st : stage) (todo : list stage) (m : reader) (ns : list node) :
  nodes_ok sts s (st :: todo) m ns →
  nodes_ok sts s todo (MRead []) (ns ++ [NStage st Recv])
  ∧ (measure (length sts) (conf todo (MRead []) (ns ++ [NStage st Recv]))
     < measure (length sts) (conf (st :: todo) m ns))%nat.
Proof.
  intros (started & Hsts & Hkind & Hwf & Hm).
  destruct m as [out|out]; [|by destruct Hm as [? _]].
  destruct Hm as [Hout Hflow]. rewrite Hout in Hflow by done. simpl in Hflow.
  split.
  - exists (started ++ [st]). split; [by rewrite <- app_assoc|].
    split; [by rewrite !fmap_app, Hkind|].
    split; [by apply wf_snoc|].
    split; [done|]. simpl. rewrite flow_app, sems_app. simpl. by rewrite Hflow.
  - rewrite !measure_conf, !weight_main, node_threads_snoc.
    rewrite sum_list_with_app. simpl.
    assert (weight (length sts) (stage_thread st (pred (length ns)) (length ns) Recv)
            = 2%nat) as -> by (by destruct st).
    lia.
Qed.

(** A node hands an element to the stage behind it. *)
Lemma inv_comm_node (todo : list stage) (m : reader) (ns : list node)
    (k : nat) (n n' : node) (st : stage) (v : T) :
  nodes_ok sts s todo m ns →
  ns !! k = Some n →
  ns !! S k = Some (NStage st Recv) →
  node_send n = Some (v, n') →
  let ns' := <[S k := NStage st (after_recv st v)]> (<[k := n']> ns) in
  nodes_ok sts s todo m ns'
  ∧ (measure (length sts) (conf todo m ns') < measure (length sts) (conf todo m ns))%nat.
Proof.
  intros Hok Hk Hk' Hsend ns'.
  destruct (node_send_inv _ _ _ Hsend) as (Hp & Ht & Hkd & He & He' & Hu & _).
  destruct m as [out|out];
    [|pose proof (done_exited _ _ _ _ _ Hok Hk); congruence].
  destruct Hok as (started & Hsts & Hkind & Hwf & Hout & Hflow).
  assert (<[k := n']> ns !! S k = Some (NStage st Recv)) as Hk1.
  { by rewrite list_lookup_insert_ne by lia. }
  assert (length ns' = length ns) as Hlen by (unfold ns'; by rewrite !length_insert).
  split.
  - exists started. split; [done|]. split.
    { unfold ns'. rewrite (kind_insert_same _ _ _ _ Hk1) by done.
      by rewrite (kind_insert_same _ _ _ _ Hk). }
    split.
    { unfold ns'. apply (wf_insert _ _ _ _ _ Hk1).
      - apply (wf_insert _ _ _ _ _ Hk Hwf); [congruence|]. by rewrite Hu.
      - done.
      - intros Hup. destruct st as [f|f|f]; simpl in Hup; [done|..];
          by destruct (f v). }
    split; [done|]. unfold ns'. by rewrite (flow_comm _ _ _ n).
  - destruct (kinds_length _ _ _ Hsts Hkind) as [_ Hbound].
    pose proof (lookup_lt_Some _ _ _ Hk') as Hlt.
    rewrite !measure_conf, !weight_main.
    pose proof (nodes_weight_insert (length sts) _ _ _ n' Hk) as H1.
    pose proof (nodes_weight_insert (length sts) _ _ _
                  (NStage st (after_recv st v)) Hk1) as H2.
    fold ns' in H2.
    pose proof (weight_node_send (length sts) k _ _ _ Hsend
                  (kinds_src _ _ _ _ Hkind Hk)) as H3.
    pose proof (weight_node_recv (length sts) (S k) st v) as H4.
    lia.
Qed.

(** The last node hands an element to main. *)
Lemma inv_comm_main (out : list T) (ns : list node)
    (k : nat) (n n' : node) (v : T) :
  nodes_ok sts s [] (MRead out) ns →
  ns !! k = Some n →
  S k = length ns →
  node_send n = Some (v, n') →
  nodes_ok sts s [] (MRead (out ++ [v])) (<[k := n']> ns)
  ∧ (measure (length sts) (conf [] (MRead (out ++ [v])) (<[k := n']> ns))
     < measure (length sts) (conf [] (MRead out) ns))%nat.
Proof.
  intros (started & Hsts & Hkind & Hwf & Hout & Hflow) Hk Hlast Hsend.
  destruct (node_send_inv _ _ _ Hsend) as (Hp & Ht & Hkd & He & He' & Hu & _).
  split.
  - exists started. split; [done|].
    split; [by rewrite (kind_insert_same _ _ _ _ Hk)|].
    split.
    { apply (wf_insert _ _ _ _ _ Hk Hwf); [congruence|]. by rewrite Hu. }
    split; [done|].
    rewrite (flow_send_last _ _ _ _ n' v Hk Hlast Hp Ht) in Hflow.
    by rewrite <- app_assoc.
  - destruct (kinds_length _ _ _ Hsts Hkind) as [_ Hbound].
    rewrite !measure_conf, !weight_main.
    pose proof (nodes_weight_insert (length sts) _ _ _ n' Hk) as H1.
    pose proof (weight_node_send (length sts) k _ _ _ Hsend
                  (kinds_src _ _ _ _ Hkind Hk)) as H3.
    lia.
Qed.

(** A stage finds its input channel closed. *)
Lemma inv_recv_closed_node (todo : list stage) (m : reader) (ns : list node)
    (k : nat) (n : node) (st : stage) :
  nodes_ok sts s todo m ns →
  ns !! k = Some n →
  exited n = true →
  ns !! S k = Some (NStage st Recv) →
  nodes_ok sts s todo m (<[S k := NStage st Closing]> ns)
  ∧ (measure (length sts) (conf todo m (<[S k := NStage st Closing]> ns))
     < measure (length sts) (conf todo m ns))%nat.
Proof.
  intros Hok Hk He Hk'.
  destruct m as [out|out];
    [|pose proof (done_exited _ _ _ _ _ Hok Hk'); done].
  destruct Hok as (started & Hsts & Hkind & Hwf & Hout & Hflow).
  split.
  - exists started. split; [done|].
    split; [by rewrite (kind_insert_same _ _ _ _ Hk')|].
    split.
    { apply (wf_insert _ _ _ _ _ Hk' Hwf); [done|].
      intros _. right. right. by exists k, n. }
    split; [done|]. by rewrite (flow_insert_same _ _ _ _ _ Hk').
  - rewrite !measure_conf, !weight_main.
    pose proof (nodes_weight_insert (length sts) _ _ _ (NStage st Closing) Hk') as H1.
    pose proof (weight_node_recv_closed (length sts) (S k) st) as H2.
    lia.
Qed.

(** Main finds the last channel closed. *)
Lemma inv_recv_closed_main (out : list T) (ns : list node) (k : nat) (n : node) :
  nodes_ok sts s [] (MRead out) ns →
  ns !! k = Some n →
  S k = length ns →
  exited n = true →
  nodes_ok sts s [] (MDone out) ns
  ∧ (measure (length sts) (conf [] (MDone out) ns)
     < measure (length sts) (conf [] (MRead out) ns))%nat.
Proof.
  intros (started & Hsts & Hkind & Hwf & Hout & Hflow) Hk Hlast He.
  split.
  - exists started. split; [done|]. split; [done|]. split; [done|].
    split; [done|]. split.
    + rewrite (flow_exited false [] ns k n) in Hflow by done.
      rewrite app_nil_r in Hflow. rewrite app_nil_r in Hsts. by subst.
    + apply (all_exited false ns k n); try done.
      intros j m' Hj. by apply (kinds_later _ _ _ _ Hkind Hj).
  - rewrite !measure_conf, !weight_main. lia.
Qed.

(** A node closes its channel. *)
Lemma inv_close (todo : list stage) (m : reader) (ns : list node)
    (k : nat) (n n' : node) :
  nodes_ok sts s todo m ns →
  ns !! k = Some n →
  node_close n = Some n' →
  nodes_ok sts s todo m (<[k := n']> ns)
  ∧ (measure (length sts) (conf todo m (<[k := n']> ns))
     < measure (length sts) (conf todo m ns))%nat.
Proof.
  intros Hok Hk Hclose.
  destruct (node_close_inv _ _ Hclose) as (Hp & Hp' & Ht & Hkd & He & He' & Hu).
  destruct m as [out|out];
    [|pose proof (done_exited _ _ _ _ _ Hok Hk); congruence].
  destruct Hok as (started & Hsts & Hkind & Hwf & Hout & Hflow).
  split.
  - exists started. split; [done|].
    split; [by rewrite (kind_insert_same _ _ _ _ Hk)|].
    split.
    { apply (wf_insert _ _ _ _ _ Hk Hwf); [done|]. intros Hup. left. auto. }
    split; [done|]. rewrite (flow_insert_same _ _ _ _ _ Hk); [done|congruence|done].
  - rewrite !measure_conf, !weight_main.
    pose proof (nodes_weight_insert (length sts) _ _ _ n' Hk) as H1.
    pose proof (weight_node_close (length sts) k _ _ Hclose) as H2.
    lia.
Qed.

Lemma exited_after_recv (st : stage) (v : T) :
  exited (NStage st (after_recv st v)) = false.
Proof. destruct st as [f|f|f]; simpl; [done|by destruct (f v)..]. Qed.

Lemma chain_inv_step (σ σ' : config) :
  chain_inv sts s σ → step σ σ' →
  chain_inv sts s σ' ∧ (measure (length sts) σ' < measure (length sts) σ)%nat.
Proof.
  intros Hinv Hstep. destruct Hinv as [|todo m ns Hok].
  - (* before to_chan *)
    inversion Hstep as [? i gi spawn k _ Hi Hni
                       |? i j gi gj c v ki kj _ Hij Hi Hni Hj Hnj Hc
                       |? i gi c kj _ Hi Hni Hc
                       |? i gi c ki _ Hi Hni Hc
                       |? i gi c v ki _ Hi Hni Hc
                       |? i gi c ki _ Hi Hni Hc]; subst;
      destruct i as [|i]; simplify_eq/=; unfold to_chan in Hni; simplify_eq.
    rewrite <- (main_thread_call_stages sts 0%nat).
    change (chain_inv sts s (conf sts (MRead []) [NSrc (Some s)])
            ∧ (measure (length sts) (conf sts (MRead []) [NSrc (Some s)])
               < measure (length sts)
                   (Config [] [G_call_to_chan s (call_stages sts)] false))%nat).
    split.
    + apply CI_nodes. exists []. split; [done|]. split; [done|].
      split; [by split|]. split; [done|]. simpl. by rewrite app_nil_r.
    + rewrite measure_conf, weight_main. unfold measure. simpl.
      rewrite weight_call_stages. lia.
  - inversion Hstep as [? i gi spawn k _ Hi Hni
                       |? i j gi gj c v ki kj _ Hij Hi Hni Hj Hnj Hc
                       |? j gj c kj _ Hj Hnj Hc
                       |? i gi c ki _ Hi Hni Hc
                       |? i gi c v ki _ Hi Hni Hc
                       |? i gi c ki _ Hi Hni Hc]; subst;
      pose proof Hok as (started & Hsts & Hkind & _);
      destruct (kinds_length _ _ _ Hsts Hkind) as [Hlen _].
    + (* go *)
      apply conf_thread in Hi as [[-> ->]|(k' & n & -> & Hk & ->)];
        [|by apply next_node_go in Hni].
      apply next_main_go in Hni as (st & todo' & out & -> & -> & -> & ->).
      destruct (inv_go st todo' (MRead out) ns Hok) as [Hok' Hlt].
      assert (Config (closed (conf (st :: todo') (MRead out) ns) ++ [false])
                (<[0%nat := call_stages todo'
                              (length (closed (conf (st :: todo') (MRead out) ns)))]>
                   (threads (conf (st :: todo') (MRead out) ns))
                 ++ [stage_thread st (pred (length ns))
                       (length (closed (conf (st :: todo') (MRead out) ns))) Recv])
                false
              = conf todo' (MRead []) (ns ++ [NStage st Recv])) as ->.
      { simpl. rewrite length_fmap. apply conf_eq.
        - by rewrite fmap_app.
        - rewrite main_thread_call_stages, length_app. simpl.
          by rewrite Nat.add_1_r.
        - by rewrite node_threads_snoc. }
      split; [by apply CI_nodes|done].
    + (* a send meets a receive *)
      apply conf_thread in Hi as [[-> ->]|(k & n & -> & Hk & ->)];
        [by apply next_main_send in Hni|].
      apply next_node_send in Hni as (-> & n' & Hsend & ->).
      destruct (node_send_inv _ _ _ Hsend) as (_ & _ & _ & He & He' & _).
      apply conf_thread in Hj as [[-> ->]|(k2 & n2 & -> & Hk2 & ->)].
      * apply next_main_recv in Hnj as (out & -> & -> & Hck & Hkj & _).
        assert (S k = length ns) as Hlast.
        { apply lookup_lt_Some in Hk. lia. }
        destruct (inv_comm_main out ns k n n' v Hok Hk Hlast Hsend) as [Hok' Hlt].
        assert (Config (closed (conf [] (MRead out) ns))
                  (<[0%nat := kj v true]>
                     (<[S k := node_thread k n']> (threads (conf [] (MRead out) ns))))
                  false
                = conf [] (MRead (out ++ [v])) (<[k := n']> ns)) as ->.
        { simpl. apply conf_eq.
          - symmetry. apply (exited_insert_same _ _ _ _ Hk). congruence.
          - by rewrite Hkj, length_insert.
          - by rewrite node_threads_insert. }
        split; [by apply CI_nodes|done].
      * apply next_node_recv in Hnj as (st & -> & Hck & Hkj & _).
        destruct (kinds_stage _ _ _ _ _ Hkind Hk2) as [j' ->].
        simpl in Hck. subst j'.
        destruct (inv_comm_node todo m ns k n n' st v Hok Hk Hk2 Hsend) as [Hok' Hlt].
        assert (Config (closed (conf todo m ns))
                  (<[S (S k) := kj v true]>
                     (<[S k := node_thread k n']> (threads (conf todo m ns))))
                  false
                = conf todo m (<[S k := NStage st (after_recv st v)]> (<[k := n']> ns)))
          as ->.
        { simpl. apply conf_eq.
          - symmetry.
            rewrite (exited_insert_same _ (S k) (NStage st Recv)).
            + apply (exited_insert_same _ _ _ _ Hk). congruence.
            + by rewrite list_lookup_insert_ne by lia.
            + apply exited_after_recv.
          - by rewrite !length_insert.
          - by rewrite !node_threads_insert, Hkj. }
        split; [by apply CI_nodes|done].
    + (* a receive on a closed channel *)
      apply conf_thread in Hj as [[-> ->]|(k2 & n2 & -> & Hk2 & ->)].
      * apply next_main_recv in Hnj as (out & -> & -> & -> & _ & Hkj).
        destruct (lookup_lt_is_Some_2 ns (pred (length ns))) as [n Hk]; [lia|].
        pose proof (conf_closed _ _ _ _ _ _ Hk Hc) as He.
        destruct (inv_recv_closed_main out ns _ n Hok Hk) as [Hok' Hlt]; [lia|done|].
        assert (Config (closed (conf [] (MRead out) ns))
                  (<[0%nat := kj 0 false]> (threads (conf [] (MRead out) ns))) false
                = conf [] (MDone out) ns) as ->.
        { simpl. apply conf_eq; [done| |done]. by rewrite Hkj. }
        split; [by apply CI_nodes|done].
      * apply next_node_recv in Hnj as (st & -> & Hck & _ & Hkj).
        destruct (kinds_stage _ _ _ _ _ Hkind Hk2) as [k ->].
        simpl in Hck. subst c.
        destruct (lookup_lt_is_Some_2 ns k) as [n Hk].
        { apply lookup_lt_Some in Hk2. lia. }
        pose proof (conf_closed _ _ _ _ _ _ Hk Hc) as He.
        destruct (inv_recv_closed_node todo m ns k n st Hok Hk He Hk2) as [Hok' Hlt].
        assert (Config (closed (conf todo m ns))
                  (<[S (S k) := kj 0 false]> (threads (conf todo m ns))) false
                = conf todo m (<[S k := NStage st Closing]> ns)) as ->.
        { simpl. apply conf_eq.
          - symmetry. by apply (exited_insert_same _ _ _ _ Hk2).
          - by rewrite length_insert.
          - by rewrite node_threads_insert, Hkj. }
        split; [by apply CI_nodes|done].
    + (* close *)
      apply conf_thread in Hi as [[-> ->]|(k & n & -> & Hk & ->)];
        [by apply next_main_close in Hni|].
      apply next_node_close in Hni as (-> & n' & Hclose & ->).
      destruct (node_close_inv _ _ Hclose) as (_ & _ & _ & _ & _ & He' & _).
      destruct (inv_close todo m ns k n n' Hok Hk Hclose) as [Hok' Hlt].
      match goal with
      | |- chain_inv _ _ ?c ∧ _ => assert (c = conf todo m (<[k := n']> ns)) as ->
      end.
      { simpl. apply conf_eq.
        - by rewrite list_fmap_insert, He'.
        - by rewrite length_insert.
        - by rewrite node_threads_insert. }
      split; [by apply CI_nodes|done].
    + (* a send on a closed channel *)
      apply conf_thread in Hi as [[-> ->]|(k & n & -> & Hk & ->)];
        [by apply next_main_send in Hni|].
      apply next_node_send in Hni as (-> & n' & Hsend & ->).
      destruct (node_send_inv _ _ _ Hsend) as (_ & _ & _ & He & _).
      pose proof (conf_closed _ _ _ _ _ _ Hk Hc). congruence.
    + (* a second close *)
      apply conf_thread in Hi as [[-> ->]|(k & n & -> & Hk & ->)];
        [by apply next_main_close in Hni|].
      apply next_node_close in Hni as (-> & n' & Hclose & ->).
      destruct (node_close_inv _ _ Hclose) as (_ & _ & _ & _ & He & _).
      pose proof (conf_closed _ _ _ _ _ _ Hk Hc). congruence.
Qed.

(** *** Some goroutine can always move *)

Lemma next_of_send (k : nat) (n n' : node) (v : T) :
  node_send n = Some (v, n') →
  next (node_thread k n) = ASend k v (node_thread k n').
Proof. destruct n as [[[|x rest]|]|[f|f|f] []]; intros Hn; by simplify_eq/=. Qed.

Lemma next_of_close (k : nat) (n n' : node) :
  node_close n = Some n' →
  next (node_thread k n) = AClose k (node_thread k n').
Proof. destruct n as [[[|x rest]|]|[f|f|f] []]; intros Hn; by simplify_eq/=. Qed.

Lemma next_of_recv (k : nat) (n : node) :
  is_recv n = true → ∃ kj, next (node_thread k n) = ARecv (pred k) kj.
Proof. destruct n as [[[|x rest]|]|[f|f|f] []]; intros Hn; simplify_eq/=; by eexists. Qed.

Lemma next_of_exited (k : nat) (n : node) :
  exited n = true → next (node_thread k n) = AHalt.
Proof. by destruct n as [[[|x rest]|]|[f|f|f] []]. Qed.

Lemma node_cases (n : node) :
  is_recv n = true
  ∨ (∃ v n', node_send n = Some (v, n'))
  ∨ (∃ n', node_close n = Some n')
  ∨ exited n = true.
Proof.
  destruct n as [[[|x rest]|]|st []]; simpl; eauto 6.
Qed.

(** The last node that is not waiting for input. *)
Lemma last_active (ns : list node) (n0 : node) :
  ns !! 0%nat = Some n0 →
  is_recv n0 = false →
  ∃ k n, ns !! k = Some n ∧ is_recv n = false ∧
    ∀ j m, (k < j)%nat → ns !! j = Some m → is_recv m = true.
Proof.
  induction ns as [|x ns IH] using rev_ind; [done|]. intros H0 Hn0.
  destruct (is_recv x) eqn:Hx.
  - destruct ns as [|y ns]; [simpl in H0; congruence|].
    destruct (IH H0 Hn0) as (k & n & Hk & Hn & Hafter).
    exists k, n. split; [by apply lookup_app_l_Some|]. split; [done|].
    intros j m Hj Hm. apply lookup_app_Some in Hm as [Hm|[_ Hm]].
    + by apply (Hafter j).
    + apply list_lookup_singleton_Some in Hm as [_ <-]. done.
  - exists (length ns), x. split; [by apply list_lookup_middle|]. split; [done|].
    intros j m Hj Hm. apply lookup_lt_Some in Hm.
    rewrite length_app in Hm. simpl in Hm. lia.
Qed.

Lemma chain_inv_progress (σ : config) :
  chain_inv sts s σ →
  result σ = Some (sems sts s) ∨ (result σ = None ∧ ∃ σ', step σ σ').
Proof.
  intros [|todo m ns Hok].
  - right. split; [done|]. eexists. by eapply (step_go _ 0).
  - destruct m as [out|out].
    2: { left. destruct Hok as (started & _ & _ & _ & _ & -> & _). done. }
    right. split.
    { unfold result. simpl. destruct todo as [|[f|f|f] todo]; done. }
    destruct todo as [|st todo].
    2: { destruct st; eexists; by eapply (step_go _ 0). }
    destruct Hok as (started & Hsts & Hkind & Hwf & _).
    destruct (kinds_length _ _ _ Hsts Hkind) as [Hlen _].
    destruct (lookup_lt_is_Some_2 ns 0) as [n0 H0]; [lia|].
    assert (is_recv n0 = false) as Hn0.
    { destruct n0 as [|st ph]; [done|].
      by destruct (kinds_stage _ _ _ _ _ Hkind H0). }
    destruct (last_active ns n0 H0 Hn0) as (k & n & Hk & Hn & Hafter).
    assert (closed (conf [] (MRead out) ns) !! k = Some (exited n)) as Hclosed.
    { simpl. by rewrite list_lookup_fmap, Hk. }
    assert (threads (conf [] (MRead out) ns) !! S k = Some (node_thread k n)) as Hthread.
    { simpl. by rewrite node_threads_lookup, Hk. }
    pose proof (lookup_lt_Some _ _ _ Hk) as Hlt.
    (* who reads channel [k]: main, or the stage behind node [k] *)
    assert (∃ j gj kj, j ≠ S k ∧ threads (conf [] (MRead out) ns) !! j = Some gj
                       ∧ next gj = ARecv k kj) as (j & gj & kj & Hj & Hgj & Hnj).
    { destruct (decide (S k = length ns)) as [Hlast|Hmore].
      - exists 0%nat. eexists _, _. split; [done|]. split; [done|].
        simpl. by rewrite <- Hlast.
      - destruct (lookup_lt_is_Some_2 ns (S k)) as [n2 Hk2]; [lia|].
        pose proof (Hafter (S k) n2 (Nat.lt_succ_diag_r k) Hk2) as Hrecv.
        destruct (next_of_recv (S k) n2 Hrecv) as [kj Hkj].
        exists (S (S k)), (node_thread (S k) n2), kj. split; [lia|]. split; [|done].
        simpl. by rewrite node_threads_lookup, Hk2. }
    destruct (node_cases n) as [Hr|[(v & n' & Hsend)|[(n' & Hclose)|He]]];
      [congruence|..].
    + destruct (node_send_inv _ _ _ Hsend) as (_ & _ & _ & He & _).
      rewrite He in Hclosed. eexists.
      eapply (step_comm _ (S k) j); [done|done|exact Hthread| |exact Hgj|exact Hnj|done].
      by apply next_of_send.
    + destruct (node_close_inv _ _ Hclose) as (_ & _ & _ & _ & He & _).
      rewrite He in Hclosed. eexists.
      eapply (step_close _ (S k)); [done|exact Hthread| |done].
      by apply next_of_close.
    + rewrite He in Hclosed. eexists.
      by eapply (step_recv_closed _ j).
Qed.

Lemma chain_always_returns :
  always_returns step result (pipeline sts s) (sems sts s).
Proof.
  apply (always_returns_by_invariant step result (chain_inv sts s)
           (measure (length sts))).
  - apply chain_inv_step.
  - apply chain_inv_progress.
  - apply CI_start.
Qed.

Lemma chain_inv_rtc (σ : config) :
  rtc step (pipeline sts s) σ → chain_inv sts s σ.
Proof.
  intros Hrun.
  apply (invariant_rtc step (chain_inv sts s)) with (pipeline sts s);
    [|done|apply CI_start].
  intros σ1 σ2 H1 H2. by destruct (chain_inv_step σ1 σ2 H1 H2).
Qed.

Lemma chain_inv_alive (σ : config) : chain_inv sts s σ → crashed σ = false.
Proof. by intros [|todo m ns Hok]. Qed.

Lemma chain_inv_result (σ : config) (r : list T) :
  chain_inv sts s σ →
  result σ = Some r →
  r = sems sts s
  ∧ length (closed σ) = S (length sts)
  ∧ (∀ c b, closed σ !! c = Some b → b = true)
  ∧ (∀ i g, threads σ !! i = Some g → next g = AHalt).
Proof.
  intros [|todo m ns Hok] Hr; [done|].
  destruct m as [out|out].
  { unfold result in Hr. simpl in Hr. by destruct todo as [|[f|f|f] todo]. }
  unfold result in Hr. simpl in Hr. simplify_eq.
  destruct Hok as (started & Hsts & Hkind & _ & Htodo & -> & Hall).
  split; [done|]. split.
  { simpl. rewrite length_fmap. subst todo.
    destruct (kinds_length ns started [] Hsts Hkind) as [-> _].
    rewrite Hsts, length_app. simpl. lia. }
  split.
  - intros c b Hc. simpl in Hc. rewrite list_lookup_fmap in Hc.
    apply fmap_Some in Hc as (n & Hn & ->).
    by apply (Forall_lookup_1 _ _ _ _ Hall Hn).
  - intros i g Hi. apply conf_thread in Hi as [[-> ->]|(k & n & -> & Hk & ->)]; [done|].
    apply next_of_exited. by apply (Forall_lookup_1 _ _ _ _ Hall Hk).
Qed.

End chain.

(** Reading a drained channel once more. *)
Lemma stages_from_chan_drained (c : chan) (σ : config) :
  drained c σ → always_returns step result (resume (from_chan c) σ) [].
Proof.
  intros (Halive & Hc & Hlen & Hhalt).
  assert (threads (resume (from_chan c) σ) !! 0%nat
          = Some (G_chan (Chan.G_from_chan c []))) as H0.
  { by apply list_lookup_insert_eq. }
  assert (∀ i g, threads (resume (from_chan c) σ) !! i = Some g →
                 next g = ARecv c (λ n ok, G_chan (if ok then Chan.G_from_chan c ([] ++ [n])
                                                   else Chan.G_return [])) ∧ i = 0%nat
                 ∨ next g = AHalt) as Hnext.
  { intros i g Hg. destruct (decide (i = 0%nat)) as [->|Hne].
    - left. rewrite H0 in Hg. by simplify_eq.
    - right. cbn [resume threads] in Hg.
      rewrite list_lookup_insert_ne in Hg by done. by eapply Hhalt. }
  apply ar_later.
  - unfold result. cbn [resume crashed threads]. rewrite Halive.
    by rewrite list_lookup_insert_eq.
  - eexists. eapply (step_recv_closed _ 0); [exact Halive|exact H0|done|exact Hc].
  - intros σ' Hstep.
    inversion Hstep as [? i gi spawn k _ Hi Hni
                       |? i j gi gj c' v ki kj _ Hij Hi Hni Hj Hnj Hc'
                       |? j gj c' kj _ Hj Hnj Hc'
                       |? i gi c' ki _ Hi Hni Hc'
                       |? i gi c' v ki _ Hi Hni Hc'
                       |? i gi c' ki _ Hi Hni Hc']; subst.
    + destruct (Hnext i gi Hi) as [[Hn _]|Hn]; congruence.
    + destruct (Hnext i gi Hi) as [[Hn _]|Hn]; congruence.
    + destruct (Hnext j gj Hj) as [[Hn ->]|Hn]; [|congruence].
      rewrite Hn in Hnj. simplify_eq.
      apply ar_now. unfold result. cbn [threads crashed].
      rewrite list_lookup_insert_eq; [done|].
      cbn [resume threads]. by rewrite length_insert.
    + destruct (Hnext i gi Hi) as [[Hn _]|Hn]; congruence.
    + destruct (Hnext i gi Hi) as [[Hn _]|Hn]; congruence.
    + destruct (Hnext i gi Hi) as [[Hn _]|Hn]; congruence.
Qed.

End stages_props.

(** ** The parallel map, once it has returned *)

Section pmap_more.
Import ParMap.
Context (f : T → T) (s : list T).

Lemma settled_all_exited (σ : state) (out : list T) (k : nat) (w : worker) :
  inv f s σ → pmap_settled s σ → main σ = M_return out →
  workers σ !! k = Some w → w = W_exit.
Proof.
  intros Hinv Hset Hmain Hk. destruct (Hset out Hmain) as [Hwg Hlen].
  pose proof (inv_wg _ _ _ Hinv) as Hcount.
  apply (exited_all (workers σ) k); [lia|done].
Qed.

Lemma settled_step (σ σ' : state) :
  inv f s σ → pmap_settled s σ → step σ σ' → pmap_settled s σ'.
Proof.
  intros Hinv Hset Hstep out Hout.
  inversion Hstep as [? g i v rest _ Hmain
                     |? g i _ Hmain Hzero
                     |? k g i v to' _ Hk Hstore
                     |? k g i v _ Hk Hstore
                     |? k _ Hk Hpos
                     |? k _ Hk Hneg]; subst; simpl in *.
  - done.
  - split; [done|].
    pose proof (inv_workers_bound f s σ Hinv) as Hbound.
    pose proof (inv_caller _ _ _ Hinv) as Hcaller. unfold caller_ok in Hcaller.
    rewrite Hmain in Hcaller. destruct Hcaller as (_ & -> & Hrest).
    apply skipn_nil_inv in Hrest. lia.
  - by pose proof (settled_all_exited σ out k _ Hinv Hset Hout Hk).
  - by apply (Hset out).
  - by pose proof (settled_all_exited σ out k _ Hinv Hset Hout Hk).
  - by apply (Hset out).
Qed.

Lemma pmap_reachable (σ : state) :
  rtc step (pmapT f s) σ → inv f s σ ∧ pmap_settled s σ.
Proof.
  intros Hrun.
  apply (invariant_rtc step (λ σ, inv f s σ ∧ pmap_settled s σ)) with (pmapT f s);
    [|done|].
  - intros σ1 σ2 [H1 H1'] H2. split.
    + by destruct (inv_step f s σ1 σ2 H1 H2).
    + by apply (settled_step σ1).
  - split; [apply pmapT_start|]. by intros out Hout.
Qed.

End pmap_more.
(** ** Slices in memory *)

Section memory.
Context (grow : nat → nat → nat).
Hypothesis grow_fits : ∀ c m : nat, (m ≤ grow c m)%nat.

Lemma array_lookup (h : heap) (l : nat) (a : list T) :
  h !! l = Some a → array h l = a.
Proof. unfold array. by intros ->. Qed.

Lemma array_insert_eq (h : heap) (l : nat) (a : list T) :
  (l < length h)%nat → array (<[l := a]> h) l = a.
Proof. intros Hl. unfold array. by rewrite list_lookup_insert_eq. Qed.

Lemma array_insert_ne (h : heap) (l l' : nat) (a : list T) :
  l ≠ l' → array (<[l := a]> h) l' = array h l'.
Proof. intros Hl. unfold array. by rewrite list_lookup_insert_ne. Qed.

Lemma array_snoc_eq (h : heap) (a : list T) : array (h ++ [a]) (length h) = a.
Proof. unfold array. by rewrite list_lookup_middle. Qed.

Lemma array_snoc_lt (h : heap) (a : list T) (l : nat) :
  (l < length h)%nat → array (h ++ [a]) l = array h l.
Proof. intros Hl. unfold array. by rewrite lookup_app_l. Qed.

Lemma elems_length (h : heap) (sl : slice) :
  valid h sl → length (elems h sl) = len sl.
Proof.
  intros (_ & Hlen & Hcap). unfold elems. rewrite length_take, length_drop. lia.
Qed.

Lemma read_elems (h : heap) (sl : slice) (i : nat) :
  valid h sl → read h sl i = elems h sl !! i.
Proof.
  intros (_ & Hlen & Hcap). unfold read, elems. case_decide as Hi.
  - by rewrite lookup_take_lt, lookup_drop.
  - symmetry. apply lookup_ge_None. rewrite length_take. lia.
Qed.

Lemma extends_elems (h0 h : heap) (sl : slice) :
  extends h0 h → (arr sl < length h0)%nat → elems h sl = elems h0 sl.
Proof. intros [_ Hsame] Hl. unfold elems, array. by rewrite Hsame. Qed.

Lemma extends_valid (h0 h : heap) (sl : slice) :
  extends h0 h → valid h0 sl → valid h sl.
Proof.
  intros [Hle Hsame] (Hl & Hlen & Hcap). unfold valid, array.
  rewrite Hsame by done. split; [lia|done].
Qed.

Lemma append_mem_spec (h0 h : heap) (sl : slice) (v : T) :
  extends h0 h → valid h sl → (length h0 ≤ arr sl)%nat →
  ∀ sl' h', append_mem grow sl v h = (sl', h') →
  extends h0 h' ∧ valid h' sl' ∧ (length h0 ≤ arr sl')%nat ∧
  elems h' sl' = elems h sl ++ [v].
Proof.
  intros [Hle Hsame] (Hl & Hlen & Hcap) Hfresh sl' h' Happ.
  unfold append_mem in Happ. case_decide as Hroom; simplify_eq.
  - (* room left *)
    split; [|split; [|split]].
    + split; [by rewrite length_insert|]. intros l Hlt.
      rewrite list_lookup_insert_ne by lia. by apply Hsame.
    + unfold valid. simpl. rewrite length_insert, array_insert_eq by done.
      rewrite length_insert. lia.
    + done.
    + unfold elems. simpl. rewrite array_insert_eq by done.
      rewrite drop_insert_ge by lia.
      replace (off sl + len sl - off sl)%nat with (len sl) by lia.
      rewrite (take_S_r _ _ v).
      * by rewrite take_insert_ge.
      * apply list_lookup_insert_eq. rewrite length_drop. lia.
  - (* a new array *)
    pose proof (grow_fits (cap sl) (S (len sl))) as Hfit.
    assert (length (elems h sl) = len sl) as Helems by (by apply elems_length).
    split; [|split; [|split]].
    + split; [rewrite length_app; lia|]. intros l Hlt.
      rewrite lookup_app_l by lia. by apply Hsame.
    + unfold valid. simpl. rewrite array_snoc_eq, length_app.
      rewrite !length_app, Helems. simpl. rewrite length_replicate. lia.
    + simpl. lia.
    + unfold elems at 1. simpl. rewrite array_snoc_eq. simpl.
      rewrite cons_middle, app_assoc.
      apply take_app_length'. rewrite length_app, Helems. simpl. lia.
Qed.

Lemma drop_mem_loop_spec (h0 : heap) (from : slice) (k : nat) :
  valid h0 from →
  ∀ (i : nat) (n : Z) (to : slice) (h : heap),
    (i + k = len from)%nat →
    extends h0 h → valid h to → (length h0 ≤ arr to)%nat →
    ∃ to' h',
      drop_mem_loop grow k i n from to h = Some (to', h') ∧
      extends h0 h' ∧ valid h' to' ∧ (length h0 ≤ arr to')%nat ∧
      elems h' to' = drop_loop n (skipn i (elems h0 from)) (elems h to).
Proof.
  intros Hfrom. induction k as [|k IH]; intros i n to h Hik Hext Hto Hfresh.
  - exists to, h. split; [done|]. split; [done|]. split; [done|]. split; [done|].
    rewrite skipn_all2; [done|]. rewrite elems_length by done. lia.
  - cbn [drop_mem_loop].
    pose proof Hfrom as (Hl & _).
    rewrite (read_elems h from i) by (by eapply extends_valid).
    rewrite (extends_elems h0 h from) by done.
    destruct (lookup_lt_is_Some_2 (elems h0 from) i) as [v Hv].
    { rewrite elems_length by done. lia. }
    rewrite Hv. cbn [mbind option_bind].
    rewrite (drop_S _ _ _ Hv). cbn [drop_loop].
    destruct (0 <? n) eqn:Hn.
    + apply IH; [lia|done..].
    + destruct (append_mem grow to v h) as [to1 h1] eqn:Happ.
      destruct (append_mem_spec h0 h to v Hext Hto Hfresh _ _ Happ)
        as (Hext1 & Hto1 & Hfresh1 & Helems1).
      rewrite <- Helems1. apply IH; [lia|done..].
Qed.

(** [drop] over memory: the elements are those of [drop], in an array that
    was not there before, and no array that was there is written. *)
Lemma drop_mem_spec (n : Z) (from : slice) (h : heap) :
  valid h from →
  ∃ to h',
    drop_mem grow n from h = Some (to, h') ∧
    elems h' to = drop n (elems h from) ∧
    valid h' to ∧
    (length h ≤ arr to)%nat ∧
    extends h h'.
Proof.
  intros Hfrom. unfold drop_mem, make_mem.
  destruct (drop_mem_loop_spec h from (len from) Hfrom 0 n
              (Slice (length h) 0 0 0) (h ++ [replicate 0 0]))
    as (to & h' & Hrun & Hext & Hto & Hfresh & Helems).
  - done.
  - split; [rewrite length_app; lia|]. intros l Hl. by apply lookup_app_l.
  - unfold valid. simpl. rewrite length_app. simpl. lia.
  - done.
  - exists to, h'. split; [done|]. split; [|done].
    rewrite Helems. done.
Qed.

Lemma store_mem_other (h h' : heap) (sl sl' : slice) (i : nat) (x : T) :
  store_mem h sl i x = Some h' → arr sl ≠ arr sl' → elems h' sl' = elems h sl'.
Proof.
  unfold store_mem. case_decide; [|done]. intros ? Hne. simplify_eq.
  unfold elems. by rewrite array_insert_ne.
Qed.

End memory.

(** ** The specification, claim by claim *)

Lemma filter_Forall (p : T → bool) (s : list T) :
  Forall (λ x, p x = true) (List.filter p s).
Proof.
  induction s as [|x s IH]; simpl; [constructor|].
  destruct (p x) eqn:E; [by constructor|done].
Qed.

(** After the mapped pipeline has been read to its end, a second
    [from_chan] on its output channel returns the empty slice. *)
Lemma map_pipeline_second_read (f : T → T) (s : list T) (σ : Chan.config) (r : list T) :
  rtc Chan.step (Chan.map_pipeline f s) σ →
  Chan.result σ = Some r →
  always_returns Chan.step Chan.result (Chan.resume (Chan.from_chan 1%nat) σ) [].
Proof.
  intros Hrun Hr.
  assert (Chan.map_inv f s σ) as Hinv.
  { apply (invariant_rtc Chan.step (Chan.map_inv f s)) with (Chan.map_pipeline f s);
      [|done|apply map_pipeline_start].
    intros σ1 σ2 H1 H2. by destruct (map_inv_step f s σ1 σ2 H1 H2). }
  rewrite (map_inv_result f s σ r Hinv Hr).
  apply from_chan_drained. split; [done|]. split; [done|]. split; [simpl; lia|].
  intros [|[|[|i]]] g Hi Hg; simplify_eq/=; done.
Qed.

(** C1: for every finite sequence [s] and function [f], the sequential map
    and the streaming pipeline agree: [mapT(f, s)] returns a slice [r], and
    [from_chan(mapchanT(f, to_chan(s)))] returns the same [r] under every
    schedule of its goroutines; [r] has the length of [s] and holds
    [f(s[i])] at every index [i], so order and count are kept. *)
Theorem C1_map_stream_agree (f : T → T) (s : list T) :
  ∃ r : list T,
    mapT f s = Some r ∧
    always_returns Chan.step Chan.result (Chan.map_pipeline f s) r ∧
    length r = length s ∧
    ∀ i : nat, r !! i = f <$> (s !! i).
Proof.
  exists (f <$> s). split; [apply mapT_spec|].
  split; [apply map_pipeline_always_returns|].
  split; [apply length_fmap|]. intros i. apply list_lookup_fmap.
Qed.

(** C2: for every finite sequence [s] and function [f], [pmapT(f, s)]
    returns, whatever the order in which its workers run, a slice that is
    index for index the one [mapT(f, s)] returns: its length is [len(s)]
    and its element [i] is [f(s[i])]. *)
Theorem C2_pmap_agrees_with_map (f : T → T) (s : list T) :
  ∃ r : list T,
    always_returns ParMap.step ParMap.result (ParMap.pmapT f s) r ∧
    mapT f s = Some r ∧
    length r = length s ∧
    ∀ i : nat, r !! i = f <$> (s !! i).
Proof.
  exists (f <$> s). split; [apply pmapT_always_returns|].
  split; [apply mapT_spec|].
  split; [apply length_fmap|]. intros i. apply list_lookup_fmap.
Qed.

(** C3: [foldlT(f, z, s)] is the left fold
    [f(...f(f(z, s[0]), s[1])..., s[n-1])], strictly left to right and with
    the accumulator as the first argument of [f]: it is [z] on the empty
    slice, and one more element at the end of the slice is one more
    application of [f] around the fold of what comes before.  In particular
    [foldlT(sub, 0, [1,2,3,4,5]) = -15]. *)
Theorem C3_foldlT_left_fold (f : T → T → T) (z : T) (s : list T) :
  foldlT f z s = fold_left f s z ∧
  foldlT f z [] = z ∧
  (∀ x : T, foldlT f z (s ++ [x]) = f (foldlT f z s) x) ∧
  foldlT sub 0 [1; 2; 3; 4; 5] = -15.
Proof.
  split; [apply foldlT_fold_left|]. split; [done|].
  split; [intros x; apply foldlT_snoc|]. by vm_compute.
Qed.

(** C4: [foldrT(f, z, s)] is the right fold
    [f(s[0], f(s[1], ...f(s[n-1], z)))], with the element as the first
    argument of [f]: it is [z] on the empty slice, and one more element at
    the front of the slice is one more application of [f] around the fold
    of the rest.  In particular [foldrT(sub, 0, [1,2,3,4,5]) = 3]. *)
Theorem C4_foldrT_right_fold (f : T → T → T) (z : T) (s : list T) :
  foldrT f z s = fold_right f z s ∧
  foldrT f z [] = z ∧
  (∀ x : T, foldrT f z (x :: s) = f x (foldrT f z s)) ∧
  foldrT sub 0 [1; 2; 3; 4; 5] = 3.
Proof.
  split; [apply foldrT_fold_right|]. split; [done|]. split; [done|]. by vm_compute.
Qed.

(** C5: for every finite sequence [s] and predicate [p], [filterT(p, s)]
    and [removeT(p, s)] partition [s]: [removeT(p, s)] is
    [filterT(not p, s)]; [s] is a merge of the two outputs, so every
    element of [s] lands in exactly one of them and both keep the order of
    [s]; the first holds the elements that satisfy [p] and the second those
    that do not; and the two lengths add up to [len(s)]. *)
Theorem C5_filter_remove_partition (p : T → bool) (s : list T) :
  removeT p s = filterT (λ x, negb (p x)) s ∧
  interleaved (filterT p s) (removeT p s) s ∧
  sublist (filterT p s) s ∧
  sublist (removeT p s) s ∧
  filterT p s ++ removeT p s ≡ₚ s ∧
  Forall (λ x, p x = true) (filterT p s) ∧
  Forall (λ x, p x = false) (removeT p s) ∧
  (length (filterT p s) + length (removeT p s) = length s)%nat.
Proof.
  pose proof (filter_remove_interleaved p s) as Hmerge.
  rewrite <- filterT_spec, <- removeT_spec in Hmerge.
  split; [by rewrite removeT_spec, filterT_spec|].
  split; [done|].
  split; [by eapply interleaved_sublist_l|].
  split; [by eapply interleaved_sublist_r|].
  split; [by apply interleaved_Permutation|].
  split; [rewrite filterT_spec; apply filter_Forall|].
  split; [|by apply interleaved_length].
  rewrite removeT_spec.
  eapply Forall_impl; [apply (filter_Forall (λ x, negb (p x)))|].
  intros x Hx. simpl in Hx. by destruct (p x).
Qed.

(** C6: for every finite sequence [s] and every integer [n] with
    [0 <= n <= len(s)], [take(n, s)] followed by [drop(n, s)] is [s]. *)
Theorem C6_take_drop_append (n : Z) (s : list T) :
  0 ≤ n ≤ Z.of_nat (length s) →
  take n s ++ drop n s = s.
Proof. intros _. apply take_drop_app. Qed.

Lemma C6_take_drop_append_witness :
  0 ≤ 3 ≤ Z.of_nat (length [1; 2; 3; 4; 5; 6; 7; 8; 9; 10]) ∧
  take 3 [1; 2; 3; 4; 5; 6; 7; 8; 9; 10] ++ drop 3 [1; 2; 3; 4; 5; 6; 7; 8; 9; 10]
    = [1; 2; 3; 4; 5; 6; 7; 8; 9; 10].
Proof.
  split; [simpl; lia|].
  apply (C6_take_drop_append 3 [1; 2; 3; 4; 5; 6; 7; 8; 9; 10]). simpl; lia.
Defined.

(** C7: for every finite sequence [s] and every [n] of type [int]:
    [take(n, s)] is the first [min(n, len(s))] elements of [s] in order,
    and is empty when [n <= 0]; [drop(n, s)] is all of [s] when [n <= 0],
    and is empty when [n >= len(s)].  What [drop] returns is a copy: run
    on a slice [from] in memory, with any policy [grow] for the capacity of
    a grown array, it returns the elements of [drop] in an array that was
    not there before the call, so not the array of [from]; it writes to no
    array that was there; and a later store through either of the two
    slices leaves the elements of the other as they are. *)
Theorem C7_take_drop_bounds (n : Z) (s : list T)
    (grow : nat → nat → nat) (h : heap) (from : slice) :
  is_int n →
  (∀ c m : nat, (m ≤ grow c m)%nat) →
  valid h from →
  take n s = firstn (Z.to_nat (Z.min n (Z.of_nat (length s)))) s ∧
  (n ≤ 0 → take n s = []) ∧
  (n ≤ 0 → drop n s = s) ∧
  (Z.of_nat (length s) ≤ n → drop n s = []) ∧
  ∃ (to : slice) (h' : heap),
    drop_mem grow n from h = Some (to, h') ∧
    elems h' to = drop n (elems h from) ∧
    (n ≤ 0 → elems h' to = elems h from) ∧
    (length h ≤ arr to)%nat ∧
    arr to ≠ arr from ∧
    (∀ l : nat, (l < length h)%nat → h' !! l = h !! l) ∧
    (∀ i x h'', store_mem h' to i x = Some h'' → elems h'' from = elems h from) ∧
    (∀ i x h'', store_mem h' from i x = Some h'' → elems h'' to = elems h' to).
Proof.
  intros Hn Hgrow Hfrom.
  assert (∀ l : list T, n ≤ 0 → drop n l = l) as Hdrop0.
  { intros l Hle. unfold drop. rewrite drop_loop_spec by done.
    by replace (Z.to_nat n) with 0%nat by lia. }
  split; [|split; [|split; [|split]]].
  - unfold take. rewrite take_loop_spec by done. simpl.
    destruct (Z.min_spec n (Z.of_nat (length s))) as [[Hlt ->]|[Hge ->]]; [done|].
    rewrite Nat2Z.id, !firstn_all2; [done|lia..].
  - intros Hle. unfold take. rewrite take_loop_spec by done.
    by replace (Z.to_nat n) with 0%nat by lia.
  - apply Hdrop0.
  - intros Hge. unfold drop. rewrite drop_loop_spec by done.
    simpl. apply skipn_all2. lia.
  - destruct (drop_mem_spec grow Hgrow n from h Hfrom)
      as (to & h' & Hrun & Helems & Hto & Hfresh & Hle & Hsame).
    pose proof Hfrom as (Hl & _).
    assert (arr to ≠ arr from) as Hne by lia.
    assert (elems h' from = elems h from) as Hfrom'.
    { by apply extends_elems. }
    exists to, h'. split; [done|]. split; [done|].
    split; [intros Hle0; by rewrite Helems, Hdrop0|].
    split; [done|]. split; [done|]. split; [done|]. split.
    + intros i x h'' Hstore.
      by rewrite (store_mem_other _ _ _ from _ _ Hstore).
    + intros i x h'' Hstore.
      apply (store_mem_other _ _ _ to _ _ Hstore). congruence.
Qed.

Lemma C7_take_drop_bounds_witness :
  (is_int 3 ∧ (∀ c m : nat, (m ≤ double_cap c m)%nat)
   ∧ valid dataset_heap dataset_slice
   ∧ take 3 [1; 2; 3; 4; 5] = [1; 2; 3]) ∧
  (is_int (-2) ∧ take (-2) [1; 2; 3; 4; 5] = []
               ∧ drop (-2) [1; 2; 3; 4; 5] = [1; 2; 3; 4; 5]
               ∧ ∃ (to : slice) (h' : heap),
                   drop_mem double_cap (-2) dataset_slice dataset_heap = Some (to, h')
                   ∧ elems h' to = dataset
                   ∧ arr to ≠ arr dataset_slice) ∧
  (is_int 7 ∧ take 7 [1; 2; 3; 4; 5] = [1; 2; 3; 4; 5] ∧ drop 7 [1; 2; 3; 4; 5] = []).
Proof.
  assert (is_int 3) as H3 by (unfold is_int, int_min, int_max; lia).
  assert (is_int (-2)) as Hm2 by (unfold is_int, int_min, int_max; lia).
  assert (is_int 7) as H7 by (unfold is_int, int_min, int_max; lia).
  assert (∀ c m : nat, (m ≤ double_cap c m)%nat) as Hgrow
    by (intros c m; unfold double_cap; lia).
  assert (valid dataset_heap dataset_slice) as Hvalid
    by (unfold valid; simpl; lia).
  split; [|split].
  - split; [done|]. split; [done|]. split; [done|].
    apply (C7_take_drop_bounds 3 [1; 2; 3; 4; 5] double_cap dataset_heap
             dataset_slice H3 Hgrow Hvalid).
  - split; [done|].
    destruct (C7_take_drop_bounds (-2) [1; 2; 3; 4; 5] double_cap dataset_heap
                dataset_slice Hm2 Hgrow Hvalid)
      as (_ & Ht & Hd & _ & to & h' & Hrun & _ & Hcopy & _ & Hne & _).
    split; [apply Ht; lia|]. split; [apply Hd; lia|].
    exists to, h'. split; [exact Hrun|]. split; [apply Hcopy; lia|exact Hne].
  - split; [done|].
    destruct (C7_take_drop_bounds 7 [1; 2; 3; 4; 5] double_cap dataset_heap
                dataset_slice H7 Hgrow Hvalid) as (Ht & _ & _ & Hd & _).
    split; [apply Ht|apply Hd; simpl; lia].
Defined.

(** C8: for every finite sequence [s], sending [s] through a channel and
    reading the channel to its end gives [s] back in the same order:
    [from_chan(to_chan(s))] returns [s] under every schedule. *)
Theorem C8_chan_roundtrip (s : list T) :
  always_returns Chan.step Chan.result (Chan.roundtrip s) s.
Proof. apply roundtrip_always_returns. Qed.

(** C9: once [from_chan(to_chan(s))] has returned, so that the producer has
    closed the channel and the channel has been read to its end, a second
    [from_chan] on the same channel (channel 0, the one [to_chan] made)
    returns the empty slice under every schedule, after finitely many
    steps and without getting stuck. *)
Theorem C9_second_read_empty (s : list T) (σ : Chan.config) (r : list T) :
  rtc Chan.step (Chan.roundtrip s) σ →
  Chan.result σ = Some r →
  always_returns Chan.step Chan.result (Chan.resume (Chan.from_chan 0%nat) σ) [].
Proof.
  intros Hrun Hr.
  assert (Chan.roundtrip_inv s σ) as Hinv.
  { apply (invariant_rtc Chan.step (Chan.roundtrip_inv s)) with (Chan.roundtrip s);
      [|done|apply roundtrip_start].
    intros σ1 σ2 H1 H2. by destruct (roundtrip_inv_step s σ1 σ2 H1 H2). }
  rewrite (roundtrip_inv_result s σ r Hinv Hr).
  apply from_chan_drained. split; [done|]. split; [done|]. split; [simpl; lia|].
  intros [|[|i]] g Hi Hg; simplify_eq/=; done.
Qed.

Lemma C9_second_read_empty_witness :
  always_returns Chan.step Chan.result
    (Chan.resume (Chan.from_chan 0%nat)
       (Chan.Config [true] [Chan.G_return [7; 8]; Chan.G_exit] false)) [].
Proof.
  apply (C9_second_read_empty [7; 8]
           (Chan.Config [true] [Chan.G_return [7; 8]; Chan.G_exit] false) [7; 8]);
    [|reflexivity].
  eapply rtc_l; [eapply (Chan.step_go _ 0); reflexivity|].
  eapply rtc_l; [eapply (Chan.step_comm _ 1 0); [reflexivity|discriminate|reflexivity..]|].
  eapply rtc_l; [eapply (Chan.step_comm _ 1 0); [reflexivity|discriminate|reflexivity..]|].
  eapply rtc_l; [eapply (Chan.step_close _ 1); reflexivity|].
  eapply rtc_l; [eapply (Chan.step_recv_closed _ 0); reflexivity|].
  apply rtc_refl.
Defined.

(** C10: [foldlT] and [foldrT] terminate on every finite slice: each
    recursive call is made on [xs[1:]], one element shorter than [xs], so
    a call on [s] nests exactly [len(s)] calls below it; with room for at
    least that many the fold returns its value, with room for fewer it does
    not, for every step function [f], seed [z] and slice [s]. *)
Theorem C10_folds_terminate (f : T → T → T) (z : T) (s : list T) (d : nat) :
  foldlT_frames d f z s
    = (if decide (length s ≤ d)%nat then Ret (foldlT f z s) else StackOverflow) ∧
  foldrT_frames d f z s
    = (if decide (length s ≤ d)%nat then Ret (foldrT f z s) else StackOverflow) ∧
  length (skipn 1 s) = (length s - 1)%nat.
Proof.
  split; [apply foldlT_frames_spec|]. split; [apply foldrT_frames_spec|].
  apply length_skipn.
Qed.

(** ** Further properties of the code *)

(** *** Sequential functions *)

(** X1: for a slice [s] whose length fits in an [int], [reverse(s)] makes
    no store outside its result and returns the elements of [s] in the
    opposite order, as many as [s] has. *)
Theorem X1_reverse_rev (s : list T) :
  Z.of_nat (length s) ≤ int_max →
  reverse s = Some (rev s) ∧ length (rev s) = length s.
Proof. intros Hlen. split; [by apply reverse_rev|apply length_rev]. Qed.

Lemma X1_reverse_rev_witness :
  Z.of_nat (length dataset) ≤ int_max ∧
  reverse dataset = Some (rev dataset) ∧ length (rev dataset) = length dataset.
Proof.
  assert (Z.of_nat (length dataset) ≤ int_max) as H by (by vm_compute).
  split; [exact H|]. apply (X1_reverse_rev dataset H).
Defined.

(** X2: reversing twice gives the slice back: for a slice [s] whose length
    fits in an [int], [reverse(reverse(s))] returns [s]. *)
Theorem X2_reverse_involutive (s : list T) :
  Z.of_nat (length s) ≤ int_max →
  reverse s ≫= reverse = Some s.
Proof.
  intros Hlen. rewrite reverse_rev by done. simpl.
  rewrite reverse_rev by (by rewrite length_rev). by rewrite rev_involutive.
Qed.

Lemma X2_reverse_involutive_witness :
  Z.of_nat (length dataset) ≤ int_max ∧ reverse dataset ≫= reverse = Some dataset.
Proof.
  assert (Z.of_nat (length dataset) ≤ int_max) as H by (by vm_compute).
  split; [exact H|]. apply (X2_reverse_involutive dataset H).
Defined.

(** X3: a left fold is a right fold over the reversed slice with the
    arguments of the step swapped: [foldlT(f, z, s)] equals
    [foldrT(g, z, reverse(s))] where [g(x, a) = f(a, x)]. *)
Theorem X3_foldlT_by_reverse (f : T → T → T) (z : T) (s : list T) :
  Z.of_nat (length s) ≤ int_max →
  ∃ r : list T, reverse s = Some r ∧ foldlT f z s = foldrT (λ x a, f a x) z r.
Proof.
  intros Hlen. exists (rev s). split; [by apply reverse_rev|].
  apply foldlT_foldrT_rev.
Qed.

Lemma X3_foldlT_by_reverse_witness :
  Z.of_nat (length dataset) ≤ int_max ∧
  ∃ r : list T, reverse dataset = Some r
                ∧ foldlT sub 0 dataset = foldrT (λ x a, sub a x) 0 r.
Proof.
  assert (Z.of_nat (length dataset) ≤ int_max) as H by (by vm_compute).
  split; [exact H|]. apply (X3_foldlT_by_reverse sub 0 dataset H).
Defined.

(** X4: for a step function that is commutative and associative, as the
    sum and the product [main] folds with are, [foldlT] and [foldrT]
    return the same value on every slice and seed. *)
Theorem X4_folds_agree (f : T → T → T) (z : T) (s : list T) :
  (∀ a b, f a b = f b a) →
  (∀ a b c, f (f a b) c = f a (f b c)) →
  foldlT f z s = foldrT f z s.
Proof. apply foldlT_foldrT_comm. Qed.

Lemma X4_folds_agree_witness :
  ((∀ a b, add a b = add b a) ∧ (∀ a b c, add (add a b) c = add a (add b c))
   ∧ foldlT add 0 dataset = foldrT add 0 dataset)
  ∧ ((∀ a b, mult a b = mult b a) ∧ (∀ a b c, mult (mult a b) c = mult a (mult b c))
     ∧ foldlT mult 1 dataset = foldrT mult 1 dataset).
Proof.
  split.
  - split; [exact add_comm|]. split; [exact add_assoc|].
    apply (X4_folds_agree add 0 dataset add_comm add_assoc).
  - split; [exact mult_comm|]. split; [exact mult_assoc|].
    apply (X4_folds_agree mult 1 dataset mult_comm mult_assoc).
Defined.

(** X5: for [n] of type [int], [drop(n, s)] is [s] without its first [n]
    elements (all of [s] for a negative [n]), and the lengths of
    [take(n, s)] and [drop(n, s)] are [min(n, len(s))] and what is left. *)
Theorem X5_drop_skips (n : Z) (s : list T) :
  is_int n →
  drop n s = skipn (Z.to_nat n) s ∧
  length (take n s) = Nat.min (Z.to_nat n) (length s) ∧
  length (drop n s) = (length s - Z.to_nat n)%nat.
Proof.
  intros Hn. unfold take, drop. rewrite take_loop_spec, drop_loop_spec by done.
  simpl. split; [done|]. split; [apply length_firstn|apply length_skipn].
Qed.

Lemma X5_drop_skips_witness :
  is_int 3 ∧
  drop 3 dataset = skipn (Z.to_nat 3) dataset ∧
  length (take 3 dataset) = Nat.min (Z.to_nat 3) (length dataset) ∧
  length (drop 3 dataset) = (length dataset - Z.to_nat 3)%nat.
Proof.
  assert (is_int 3) as H by (unfold is_int, int_min, int_max; lia).
  split; [exact H|]. apply (X5_drop_skips 3 dataset H).
Defined.

(** X6: filtering twice with one predicate changes nothing more, and so
    does removing twice; removing from what was filtered, or filtering
    what was left after removing, leaves nothing. *)
Theorem X6_filter_remove_again (p : T → bool) (s : list T) :
  filterT p (filterT p s) = filterT p s ∧
  removeT p (removeT p s) = removeT p s ∧
  removeT p (filterT p s) = [] ∧
  filterT p (removeT p s) = [].
Proof.
  rewrite !filterT_spec, !removeT_spec.
  split; [apply filter_filter_same|].
  split; [apply (filter_filter_same (λ x, negb (p x)))|].
  split.
  - apply filter_filter_neg. intros x ->. done.
  - apply (filter_filter_neg (λ x, negb (p x))). intros x Hx. by destruct (p x).
Qed.

(** X7: mapping [f] and then [g] is mapping their composition: neither
    of the two calls one after the other, nor the single call, stores out
    of range, and they return the same slice. *)
Theorem X7_mapT_fusion (f g : T → T) (s : list T) :
  ∃ r1 r2 : list T,
    mapT f s = Some r1 ∧
    mapT g r1 = Some r2 ∧
    mapT (λ x, g (f x)) s = Some r2 ∧
    mapT f s ≫= mapT g = mapT (λ x, g (f x)) s.
Proof.
  exists (f <$> s), (g <$> (f <$> s)).
  split; [apply mapT_spec|]. split; [apply mapT_spec|].
  assert (mapT (λ x, g (f x)) s = Some (g <$> (f <$> s))) as Hfused.
  { rewrite mapT_spec. f_equal. by rewrite <- list_fmap_compose. }
  split; [done|]. rewrite Hfused, mapT_spec. simpl. apply mapT_spec.
Qed.

(** X18: a fold over two slices joined is the fold over the second one
    started from the fold over the first for [foldlT], and the fold over
    the first one started from the fold over the second for [foldrT]. *)
Theorem X18_folds_over_append (f : T → T → T) (z : T) (a b : list T) :
  foldlT f z (a ++ b) = foldlT f (foldlT f z a) b ∧
  foldrT f z (a ++ b) = foldrT f (foldrT f z b) a.
Proof.
  split.
  - revert z. induction a as [|x a IH]; intros z; simpl; [done|apply IH].
  - induction a as [|x a IH]; simpl; [done|by rewrite IH].
Qed.

(** *** The filtering stages and chains of stages *)

(** X8: [from_chan(filterchanT(p, to_chan(s)))] returns, under every
    schedule of its goroutines, what [filterT(p, s)] returns. *)
Theorem X8_filter_stream_agree (p : T → bool) (s : list T) :
  always_returns Stages.step Stages.result (Stages.filter_pipeline p s) (filterT p s).
Proof.
  rewrite filterT_spec. apply (chain_always_returns [Stages.Filter p] s).
Qed.

(** X9: [from_chan(removechanT(p, to_chan(s)))] returns, under every
    schedule of its goroutines, what [removeT(p, s)] returns. *)
Theorem X9_remove_stream_agree (p : T → bool) (s : list T) :
  always_returns Stages.step Stages.result (Stages.remove_pipeline p s) (removeT p s).
Proof.
  rewrite removeT_spec. apply (chain_always_returns [Stages.Remove p] s).
Qed.

(** X10: stages compose: for any chain of [mapchanT], [filterchanT] and
    [removechanT] stages behind [to_chan(s)], every schedule ends with
    [from_chan] returning what [mapT], [filterT] and [removeT] give when
    applied to [s] one after the other in the same order. *)
Theorem X10_chain_agrees (sts : list Stages.stage) (s : list T) :
  ∃ r : list T,
    Stages.seq_stages sts s = Some r ∧
    always_returns Stages.step Stages.result (Stages.pipeline sts s) r.
Proof.
  exists (Stages.sems sts s). split; [apply seq_stages_sems|].
  apply chain_always_returns.
Qed.

(** A run of [from_chan(filterchanT(even, to_chan([1, 2])))] from its
    start to its end. *)
Lemma filter_run_example :
  rtc Stages.step (Stages.pipeline [Stages.Filter even] [1; 2])
    Stages.filter_example_end.
Proof.
  eapply rtc_l; [eapply (Stages.step_go _ 0); reflexivity|].
  eapply rtc_l; [eapply (Stages.step_go _ 0); reflexivity|].
  eapply rtc_l;
    [eapply (Stages.step_comm _ 1 2); [reflexivity|discriminate|reflexivity..]|].
  eapply rtc_l;
    [eapply (Stages.step_comm _ 1 2); [reflexivity|discriminate|reflexivity..]|].
  eapply rtc_l;
    [eapply (Stages.step_comm _ 2 0); [reflexivity|discriminate|reflexivity..]|].
  eapply rtc_l; [eapply (Stages.step_close _ 1); reflexivity|].
  eapply rtc_l; [eapply (Stages.step_recv_closed _ 2); reflexivity|].
  eapply rtc_l; [eapply (Stages.step_close _ 2); reflexivity|].
  eapply rtc_l; [eapply (Stages.step_recv_closed _ 0); reflexivity|].
  apply rtc_refl.
Qed.

(** X11: no run of a chain panics: no goroutine ever sends on a closed
    channel or closes a channel a second time. *)
Theorem X11_chain_never_panics (sts : list Stages.stage) (s : list T)
    (σ : Stages.config) :
  rtc Stages.step (Stages.pipeline sts s) σ →
  Stages.crashed σ = false.
Proof. intros Hrun. by apply (chain_inv_alive sts s), chain_inv_rtc. Qed.

Lemma X11_chain_never_panics_witness :
  rtc Stages.step (Stages.pipeline [Stages.Filter even] [1; 2])
    Stages.filter_example_end ∧
  Stages.crashed Stages.filter_example_end = false.
Proof.
  split; [exact filter_run_example|].
  apply (X11_chain_never_panics [Stages.Filter even] [1; 2]).
  exact filter_run_example.
Defined.

(** X12: when [from_chan] has returned at the end of a chain, it has
    returned what the sequential functions give, every channel of the
    chain is closed and every goroutine has run to its end: none is left
    waiting. *)
Theorem X12_chain_shuts_down (sts : list Stages.stage) (s : list T)
    (σ : Stages.config) (r : list T) :
  rtc Stages.step (Stages.pipeline sts s) σ →
  Stages.result σ = Some r →
  Stages.seq_stages sts s = Some r ∧
  length (Stages.closed σ) = S (length sts) ∧
  (∀ c b, Stages.closed σ !! c = Some b → b = true) ∧
  (∀ i g, Stages.threads σ !! i = Some g → Stages.next g = Stages.AHalt).
Proof.
  intros Hrun Hr.
  destruct (chain_inv_result sts s σ r (chain_inv_rtc sts s σ Hrun) Hr)
    as (-> & Hlen & Hclosed & Hhalt).
  split; [apply seq_stages_sems|]. done.
Qed.

Lemma X12_chain_shuts_down_witness :
  rtc Stages.step (Stages.pipeline [Stages.Filter even] [1; 2])
    Stages.filter_example_end ∧
  Stages.result Stages.filter_example_end = Some [2] ∧
  Stages.seq_stages [Stages.Filter even] [1; 2] = Some [2] ∧
  length (Stages.closed Stages.filter_example_end) = 2%nat ∧
  (∀ c b, Stages.closed Stages.filter_example_end !! c = Some b → b = true) ∧
  (∀ i g, Stages.threads Stages.filter_example_end !! i = Some g →
          Stages.next g = Stages.AHalt).
Proof.
  split; [exact filter_run_example|]. split; [reflexivity|].
  apply (X12_chain_shuts_down [Stages.Filter even] [1; 2] _ [2]
           filter_run_example eq_refl).
Defined.

(** X13: once [from_chan] has returned at the end of a chain, a second
    [from_chan] on the last channel of the chain returns the empty slice
    under every schedule. *)
Theorem X13_chain_second_read (sts : list Stages.stage) (s : list T)
    (σ : Stages.config) (r : list T) :
  rtc Stages.step (Stages.pipeline sts s) σ →
  Stages.result σ = Some r →
  always_returns Stages.step Stages.result
    (Stages.resume (Stages.from_chan (length sts)) σ) [].
Proof.
  intros Hrun Hr.
  pose proof (chain_inv_rtc sts s σ Hrun) as Hinv.
  destruct (chain_inv_result sts s σ r Hinv Hr) as (_ & Hlen & Hclosed & Hhalt).
  apply stages_from_chan_drained.
  split; [by apply (chain_inv_alive sts s)|]. split.
  - destruct (lookup_lt_is_Some_2 (Stages.closed σ) (length sts)) as [b Hb]; [lia|].
    rewrite (Hclosed _ _ Hb) in Hb. exact Hb.
  - split; [|by intros i g _; apply Hhalt].
    unfold Stages.result in Hr. destruct (Stages.crashed σ); [done|].
    destruct (Stages.threads σ); [done|simpl; lia].
Qed.

Lemma X13_chain_second_read_witness :
  rtc Stages.step (Stages.pipeline [Stages.Filter even] [1; 2])
    Stages.filter_example_end ∧
  Stages.result Stages.filter_example_end = Some [2] ∧
  always_returns Stages.step Stages.result
    (Stages.resume (Stages.from_chan 1%nat) Stages.filter_example_end) [].
Proof.
  split; [exact filter_run_example|]. split; [reflexivity|].
  apply (X13_chain_second_read [Stages.Filter even] [1; 2] _ [2]
           filter_run_example eq_refl).
Defined.

(** *** The parallel map *)

(** Two runs of [pmapT(double, ...)]: one to its end, one up to the point
    where both workers have been started. *)
Lemma pmap_run_example :
  rtc ParMap.step (ParMap.pmapT double [5]) pmap_example_end.
Proof.
  eapply rtc_l; [by eapply ParMap.step_go|].
  eapply rtc_l; [by eapply (ParMap.step_store _ 0)|].
  eapply rtc_l; [by eapply (ParMap.step_done _ 0)|].
  eapply rtc_l; [by eapply ParMap.step_wait|].
  apply rtc_refl.
Qed.

Lemma pmap_started_example :
  rtc ParMap.step (ParMap.pmapT double [1; 2]) pmap_example_started.
Proof.
  eapply rtc_l; [by eapply ParMap.step_go|].
  eapply rtc_l; [by eapply ParMap.step_go|].
  apply rtc_refl.
Qed.

(** X14: at every point of every run of [pmapT(f, s)], a worker that has
    not stored yet holds its own index and the element of [s] there, and
    the index is inside [to]; so two workers never hold the same index. *)
Theorem X14_pmap_disjoint_indices (f : T → T) (s : list T) (σ : ParMap.state)
    (k i : nat) (g : T → T) (v : T) :
  rtc ParMap.step (ParMap.pmapT f s) σ →
  ParMap.workers σ !! k = Some (ParMap.W_run g i v) →
  i = k ∧
  (i < length (ParMap.to σ))%nat ∧
  s !! i = Some v ∧
  g = f ∧
  ∀ (k' i' : nat) (g' : T → T) (v' : T),
    ParMap.workers σ !! k' = Some (ParMap.W_run g' i' v') → k ≠ k' → i ≠ i'.
Proof.
  intros Hrun Hk.
  destruct (pmap_reachable f s σ Hrun) as [Hinv _].
  destruct (ParMap.inv_workers _ _ _ Hinv _ _ Hk) as (v0 & Hv0 & -> & -> & ->).
  split; [done|]. split.
  { rewrite (ParMap.inv_length _ _ _ Hinv). by eapply lookup_lt_Some. }
  split; [done|]. split; [done|].
  intros k' i' g' v' Hk' Hne.
  by destruct (ParMap.inv_workers _ _ _ Hinv _ _ Hk') as (v1 & Hv1 & _ & -> & _).
Qed.

Lemma X14_pmap_disjoint_indices_witness :
  (rtc ParMap.step (ParMap.pmapT double [1; 2]) pmap_example_started ∧
   ParMap.workers pmap_example_started !! 1%nat = Some (ParMap.W_run double 1 2) ∧
   1%nat = 1%nat ∧
   (1 < length (ParMap.to pmap_example_started))%nat ∧
   [1; 2] !! 1%nat = Some 2 ∧
   double = double ∧
   1%nat ≠ 0%nat) ∧
  (rtc ParMap.step (ParMap.pmapT double [5])
     (ParMap.State [0] 1 (ParMap.M_loop double 1 []) [ParMap.W_run double 0 5] false) ∧
   (0 < length [0])%nat ∧ [5] !! 0%nat = Some 5).
Proof.
  split.
  - split; [exact pmap_started_example|]. split; [reflexivity|].
    destruct (X14_pmap_disjoint_indices double [1; 2] _ 1 1 double 2
                pmap_started_example eq_refl) as (H1 & H2 & H3 & H4 & H5).
    split; [exact H1|]. split; [exact H2|]. split; [exact H3|]. split; [exact H4|].
    apply (H5 0%nat 0%nat double 1); [reflexivity|discriminate].
  - assert (rtc ParMap.step (ParMap.pmapT double [5])
              (ParMap.State [0] 1 (ParMap.M_loop double 1 [])
                 [ParMap.W_run double 0 5] false)) as Hrun.
    { eapply rtc_l; [by eapply ParMap.step_go|]. apply rtc_refl. }
    split; [exact Hrun|].
    destruct (X14_pmap_disjoint_indices double [5] _ 0 0 double 5 Hrun eq_refl)
      as (_ & H2 & H3 & _).
    split; [exact H2|exact H3].
Defined.

(** X15: no run of [pmapT] panics, [to] keeps the length of the input,
    and the counter of the wait group stays between zero and that
    length. *)
Theorem X15_pmap_never_panics (f : T → T) (s : list T) (σ : ParMap.state) :
  rtc ParMap.step (ParMap.pmapT f s) σ →
  ParMap.crashed σ = false ∧
  length (ParMap.to σ) = length s ∧
  0 ≤ ParMap.wg σ ≤ Z.of_nat (length s).
Proof.
  intros Hrun. destruct (pmap_reachable f s σ Hrun) as [Hinv _].
  pose proof (inv_workers_bound f s σ Hinv) as Hbound.
  pose proof (exited_le (ParMap.workers σ)) as Hle.
  destruct Hinv as [Halive Hlen _ _ Hwg].
  split; [done|]. split; [done|]. lia.
Qed.

Lemma X15_pmap_never_panics_witness :
  rtc ParMap.step (ParMap.pmapT double [1; 2]) pmap_example_started ∧
  ParMap.crashed pmap_example_started = false ∧
  length (ParMap.to pmap_example_started) = length [1; 2] ∧
  0 ≤ ParMap.wg pmap_example_started ≤ Z.of_nat (length [1; 2]).
Proof.
  split; [exact pmap_started_example|].
  apply (X15_pmap_never_panics double [1; 2] _ pmap_started_example).
Defined.

(** X16: when [pmapT(f, s)] has returned, it has returned what
    [mapT(f, s)] returns, the counter of the wait group is zero, and
    there is one worker for each element of [s], all of them finished. *)
Theorem X16_pmap_all_done (f : T → T) (s : list T) (σ : ParMap.state) (r : list T) :
  rtc ParMap.step (ParMap.pmapT f s) σ →
  ParMap.result σ = Some r →
  mapT f s = Some r ∧
  ParMap.wg σ = 0 ∧
  length (ParMap.workers σ) = length s ∧
  Forall (λ w, w = ParMap.W_exit) (ParMap.workers σ).
Proof.
  intros Hrun Hr. destruct (pmap_reachable f s σ Hrun) as [Hinv Hset].
  unfold ParMap.result in Hr. rewrite (ParMap.inv_alive _ _ _ Hinv) in Hr.
  destruct (ParMap.main σ) as [g i rest|out] eqn:Hmain; [done|]. simplify_eq.
  pose proof (ParMap.inv_caller _ _ _ Hinv) as Hcaller.
  unfold ParMap.caller_ok in Hcaller. rewrite Hmain in Hcaller. subst r.
  destruct (Hset _ Hmain) as [Hwg Hlen].
  split; [apply mapT_spec|]. split; [done|]. split; [done|].
  apply Forall_lookup_2. intros k w Hk.
  by apply (settled_all_exited f s σ _ k w Hinv Hset Hmain).
Qed.

Lemma X16_pmap_all_done_witness :
  rtc ParMap.step (ParMap.pmapT double [5]) pmap_example_end ∧
  ParMap.result pmap_example_end = Some [10] ∧
  mapT double [5] = Some [10] ∧
  ParMap.wg pmap_example_end = 0 ∧
  length (ParMap.workers pmap_example_end) = length [5] ∧
  Forall (λ w, w = ParMap.W_exit) (ParMap.workers pmap_example_end).
Proof.
  split; [exact pmap_run_example|]. split; [reflexivity|].
  apply (X16_pmap_all_done double [5] _ [10] pmap_run_example eq_refl).
Defined.

(** X17: on the empty slice [pmapT] starts no worker: its one possible
    step is the return from [wg.Wait()], with the empty slice. *)
Theorem X17_pmap_empty (f : T → T) (σ : ParMap.state) :
  ParMap.step (ParMap.pmapT f []) σ ↔
  σ = ParMap.State [] 0 (ParMap.M_return []) [] false.
Proof.
  split.
  - intros Hstep.
    inversion Hstep as [? g i v rest _ Hmain
                       |? g i _ Hmain Hzero
                       |? k g i v to' _ Hk Hstore
                       |? k g i v _ Hk Hstore
                       |? k _ Hk Hpos
                       |? k _ Hk Hneg]; subst; simplify_eq/=.
    done.
  - intros ->. by apply (ParMap.step_wait (ParMap.pmapT f []) f 0).
Qed.
